(** * User Feedback Dashboard API: a shallow embedding of [main.py]

    The module [main.py] keeps an in-memory list of feedback records and a
    counter, appends to it in [submit_feedback] and reads it, filtered and
    paginated, in [get_feedbacks].  This file embeds the two handlers, the
    token dependency and the background notification, first as sequential
    state-passing programs and then as a small-step interleaving semantics
    of handler threads sharing the list, the counter and the lock.

    Conventions.
    - Python [int] is [Z]; a Python [str] is the [string] of its UTF-8
      bytes, so that equal strings are equal byte strings and the number
      of characters is [char_length].
    - [str.lower] follows the Unicode case mappings, which are no part of
      [main.py].  [str_lower] is its restriction to ASCII text (bytes
      65..90 move to 97..122, every other byte is kept); what is proved of
      the case-insensitive match itself is proved of the handler over any
      lower-casing function ([get_feedbacks_with]), of which
      [get_feedbacks] is the instance at [str_lower].
    - The three-key dictionaries stored in [feedback_db] are a record.
    - The pydantic schemas are records; the field constraints they declare
      ([ge], [le], [min_length], e-mail syntax) are enforced by the
      framework before a handler body runs and appear here as hypotheses
      where a statement needs them. *)

From Stdlib Require Import ZArith Ascii String.
From stdpp Require Import base numbers list strings gmap relations.

Local Open Scope string_scope.
Local Open Scope Z_scope.
Local Open Scope list_scope.

(** ** Data model *)

(** One element of [feedback_db]: the dict built at lines 87-91. *)
Record feedback_record : Type := mk_record {
  id : Z;
  email : string;
  message : string
}.

#[global] Instance feedback_record_eq_dec : EqDecision feedback_record.
Proof. solve_decision. Defined.

(** The module-level globals [feedback_db] and [feedback_id_counter]. *)
Record Store : Type := mk_store {
  feedback_db : list feedback_record;
  feedback_id_counter : Z
}.

(** The state of the module right after import (lines 18-19). *)
Definition initial_store : Store :=
  {| feedback_db := []; feedback_id_counter := 1 |}.

(** *** Schemas *)

Record FeedbackIn : Type := mk_in {
  in_email : string;
  in_message : string
}.

Record FeedbackOut : Type := mk_out {
  out_id : Z;
  out_email : string;
  out_message : string
}.

Record FeedbackListOut : Type := mk_list_out {
  total : Z;
  page : Z;
  page_size : Z;
  feedbacks : list FeedbackOut
}.

Record FeedbackSubmitResponse : Type := mk_submit_response {
  success : bool;
  response_message : string;
  feedback : FeedbackOut
}.

(** [FeedbackOut] applied to an unpacked stored dict [fb]: the model
    built from its three keys. *)
Definition FeedbackOut_of (fb : feedback_record) : FeedbackOut :=
  {| out_id := id fb; out_email := email fb; out_message := message fb |}.

(** *** Errors *)

Record HTTPException : Type := mk_http_exception {
  status_code : Z;
  detail : string
}.

Record JSONResponse : Type := mk_json_response {
  json_status_code : Z;
  json_detail : string
}.

Definition HTTP_401_UNAUTHORIZED : Z := 401.

(** ** The handler monad: a global store and [HTTPException]

    A raised exception keeps whatever the store was when it was raised. *)

Definition M (A : Type) : Type := Store → (HTTPException + A) * Store.

Definition raise {A} (exc : HTTPException) : M A := λ st, (inl exc, st).

Definition gets {A} (f : Store → A) : M A := λ st, (inr (f st), st).

Definition modify (f : Store → Store) : M unit := λ st, (inr (), f st).

#[global] Instance M_ret : MRet M := λ A a st, (inr a, st).

#[global] Instance M_bind : MBind M := λ A B k m st,
  match m st with
  | (inl exc, st') => (inl exc, st')
  | (inr a, st') => k a st'
  end.

(** ** Python primitives used by the handlers *)

(** [str.lower] on one ASCII character. *)
Definition ascii_lower (c : ascii) : ascii :=
  let n := nat_of_ascii c in
  if ((65 <=? n)%nat && (n <=? 90)%nat)%bool then ascii_of_nat (n + 32) else c.

(** [str.lower]. *)
Fixpoint str_lower (s : string) : string :=
  match s with
  | EmptyString => EmptyString
  | String c s' => String (ascii_lower c) (str_lower s')
  end.

(** Truth value of an [Optional[str]]: [None] and [""] are false. *)
Definition truthy (o : option string) : bool :=
  match o with
  | None => false
  | Some s => negb (String.eqb s "")
  end.

(** Index adjustment of a slice bound against a length, as CPython does
    it for step 1: a negative bound counts from the end, then the bound is
    clamped to [0, len]. *)
Definition slice_adjust (len i : Z) : Z :=
  if bool_decide (i < 0)
  then (if bool_decide (i + len < 0) then 0 else i + len)
  else (if bool_decide (len < i) then len else i).

(** [l[start:stop]]. *)
Definition py_slice {A} (l : list A) (start stop : Z) : list A :=
  let len := Z.of_nat (length l) in
  let lo := slice_adjust len start in
  let hi := slice_adjust len stop in
  take (Z.to_nat (hi - lo)) (drop (Z.to_nat lo) l).

(** ** Auth (lines 44-51) *)

Definition ADMIN_TOKEN : string := "secret-admin-token".

Definition get_admin_token (token : string) : M bool :=
  if bool_decide (token ≠ ADMIN_TOKEN)
  then raise {| status_code := HTTP_401_UNAUTHORIZED;
                detail := "Invalid admin token." |}
  else mret true.

(** ** Background task (lines 54-56) *)

(** What [BackgroundTasks.add_task] records: the callable and its
    arguments.  The only callable ever added is
    [send_confirmation_email]. *)
Inductive BackgroundTask : Type :=
  | Task_send_confirmation_email (email message : string).

Definition BackgroundTasks : Type := list BackgroundTask.

Definition add_task (background_tasks : BackgroundTasks) (t : BackgroundTask)
  : BackgroundTasks := background_tasks ++ [t].

(** Standard output: [Some lines] while it accepts writes, [None] once a
    write has failed (the [print] raised). *)
Definition Stdout : Type := option (list string).

Definition send_confirmation_email (email message : string) (out : Stdout)
  : Stdout :=
  match out with
  | Some lines =>
      Some (lines ++ ["Simulated email: Sending confirmation to " +:+ email
                        +:+ " for feedback: '" +:+ message +:+ "'"])
  | None => None
  end.

Definition run_task (t : BackgroundTask) (out : Stdout) : Stdout :=
  match t with
  | Task_send_confirmation_email e m => send_confirmation_email e m out
  end.

(** ** User route (lines 84-99) *)

Definition submit_feedback (feedback : FeedbackIn)
    (background_tasks : BackgroundTasks)
  : M (FeedbackSubmitResponse * BackgroundTasks) :=
  (* with feedback_lock: *)
  n ← gets feedback_id_counter;
  let feedback_record :=
    {| id := n; email := in_email feedback; message := in_message feedback |} in
  modify (λ st, {| feedback_db := feedback_db st ++ [feedback_record];
                   feedback_id_counter := feedback_id_counter st |});;
  modify (λ st, {| feedback_db := feedback_db st;
                   feedback_id_counter := feedback_id_counter st + 1 |});;
  (* lock released *)
  let background_tasks :=
    add_task background_tasks
      (Task_send_confirmation_email (in_email feedback) (in_message feedback)) in
  mret ({| success := true;
          response_message := "Feedback received. Confirmation email sent.";
          feedback := FeedbackOut_of feedback_record |},
       background_tasks).

(** ** Admin route (lines 134-155) *)

(** Lines 141-144: the list [filtered] computed from the list read from
    [feedback_db].  The query parameter [email] is [email_q] here.  The
    first branch is taken only for [email_q = Some e] with [e] not empty,
    where [default "" email_q] is [e]. *)
Definition filter_by_email (db : list feedback_record)
    (email_q : option string) : list feedback_record :=
  if truthy email_q
  then filter (λ f, str_lower (email f) = str_lower (default "" email_q)) db
  else db.

(** Lines 145-155: the page descriptor computed from [filtered]. *)
Definition paginate (filtered : list feedback_record) (page page_size : Z)
  : FeedbackListOut :=
  let total := Z.of_nat (length filtered) in
  let start := (page - 1) * page_size in
  let end_ := start + page_size in
  let paginated := py_slice filtered start end_ in
  {| total := total; page := page; page_size := page_size;
     feedbacks := FeedbackOut_of <$> paginated |}.

(** The handler body; [token_auth] is the value of the dependency. *)
Definition get_feedbacks (page page_size : Z) (email_q : option string)
    (token_auth : bool) : M FeedbackListOut :=
  db ← gets feedback_db;
  mret (paginate (filter_by_email db email_q) page page_size).

(** The route as the framework runs it: the dependency
    [Depends(get_admin_token)] is evaluated on the query parameter
    [token] and the handler is called only when it returned. *)
Definition get_feedbacks_route (page page_size : Z) (email_q : option string)
    (token : string) : M FeedbackListOut :=
  token_auth ← get_admin_token token;
  get_feedbacks page page_size email_q token_auth.

(** Lines 161-166. *)
Definition http_exception_handler (exc : HTTPException) : JSONResponse :=
  {| json_status_code := status_code exc; json_detail := detail exc |}.

(** ** Request lifecycle

    The framework calls the handler with a fresh [BackgroundTasks], sends
    the response the handler returned, and only then runs the tasks that
    were added, in order. *)

Record World : Type := mk_world {
  store : Store;
  stdout : Stdout
}.

Definition run_background (tasks : BackgroundTasks) (out : Stdout) : Stdout :=
  foldl (λ o t, run_task t o) out tasks.

Definition post_submit (feedback : FeedbackIn) (w : World)
  : (HTTPException + FeedbackSubmitResponse) * World :=
  match submit_feedback feedback [] (store w) with
  | (inr (response, tasks), st') =>
      (inr response,
       {| store := st'; stdout := run_background tasks (stdout w) |})
  | (inl exc, st') => (inl exc, {| store := st'; stdout := stdout w |})
  end.

(** ** Sequential histories *)

Inductive request : Type :=
  | Submit (feedback : FeedbackIn)
  | List_feedbacks (page page_size : Z) (email_q : option string)
      (token : string).

(** The store after serving one request. *)
Definition serve (st : Store) (rq : request) : Store :=
  match rq with
  | Submit feedback => snd (submit_feedback feedback [] st)
  | List_feedbacks page page_size email_q token =>
      snd (get_feedbacks_route page page_size email_q token st)
  end.

(** The store after serving a sequence of requests, oldest first. *)
Definition run (rqs : list request) : Store := foldl serve initial_store rqs.

(** The successful submissions of a history, oldest first. *)
Definition submissions (rqs : list request) : list FeedbackIn :=
  omap (λ rq, match rq with Submit fb => Some fb | _ => None end) rqs.

(** The id a submission on store [st] is answered with. *)
Definition issued_id (fb : FeedbackIn) (st : Store) : option Z :=
  match fst (submit_feedback fb [] st) with
  | inr (response, _) => Some (out_id (feedback response))
  | inl _ => None
  end.

(** ** Concurrent execution

    Handlers run in worker threads that share [feedback_db],
    [feedback_id_counter] and [feedback_lock].  A thread advances by one
    access to the shared globals at a time; between two accesses of one
    thread any other thread may run.  [list.append], reading a global,
    writing a global, indexing a list and copying a list are one access
    each; [feedback_id_counter += 1] is a read followed by a write. *)

(** Program points of one call of [submit_feedback]. *)
Inductive submit_pc : Type :=
  | AtAcquire                                  (* line 86, lock not yet held *)
  | AtBuild                                    (* lines 87-91 *)
  | AtAppend (r : feedback_record)             (* line 92 *)
  | AtLoadCounter (r : feedback_record)        (* line 93, read *)
  | AtStoreCounter (r : feedback_record) (c : Z) (* line 93, write *)
  | AtRelease (r : feedback_record)            (* end of the with block *)
  | AtRespond (r : feedback_record)            (* lines 94-99 *)
  | SubmitDone (response : FeedbackSubmitResponse) (tasks : BackgroundTasks).

(** Program points of one request to the admin route. *)
Inductive list_pc : Type :=
  | AtAuth                                     (* the dependency, lines 45-51 *)
  | AtFilter                                   (* line 141 *)
  | AtIter (i : nat) (acc : list feedback_record)  (* line 142, next index *)
  | AtPaginate (filtered : list feedback_record)   (* lines 145-155 *)
  | ListDone (result : HTTPException + FeedbackListOut).

Inductive thread : Type :=
  | SubmitThread (feedback : FeedbackIn) (pc : submit_pc)
  | ListThread (page page_size : Z) (email_q : option string)
      (token : string) (pc : list_pc).

(** The globals of the module; [feedback_lock] is [true] while held. *)
Record Shared : Type := mk_shared {
  globals : Store;
  feedback_lock : bool
}.

Definition set_db (sh : Shared) (db : list feedback_record) : Shared :=
  {| globals := {| feedback_db := db;
                   feedback_id_counter := feedback_id_counter (globals sh) |};
     feedback_lock := feedback_lock sh |}.

Definition set_counter (sh : Shared) (c : Z) : Shared :=
  {| globals := {| feedback_db := feedback_db (globals sh);
                   feedback_id_counter := c |};
     feedback_lock := feedback_lock sh |}.

Definition set_lock (sh : Shared) (b : bool) : Shared :=
  {| globals := globals sh; feedback_lock := b |}.

Definition submit_step (feedback : FeedbackIn) (pc : submit_pc) (sh : Shared)
  : option (submit_pc * Shared) :=
  match pc with
  | AtAcquire =>
      if feedback_lock sh then None else Some (AtBuild, set_lock sh true)
  | AtBuild =>
      Some (AtAppend {| id := feedback_id_counter (globals sh);
                        email := in_email feedback;
                        message := in_message feedback |}, sh)
  | AtAppend r =>
      Some (AtLoadCounter r, set_db sh (feedback_db (globals sh) ++ [r]))
  | AtLoadCounter r =>
      Some (AtStoreCounter r (feedback_id_counter (globals sh)), sh)
  | AtStoreCounter r c => Some (AtRelease r, set_counter sh (c + 1))
  | AtRelease r => Some (AtRespond r, set_lock sh false)
  | AtRespond r =>
      Some (SubmitDone
              {| success := true;
                 response_message :=
                   "Feedback received. Confirmation email sent.";
                 feedback := FeedbackOut_of r |}
              (add_task []
                 (Task_send_confirmation_email (in_email feedback)
                    (in_message feedback))), sh)
  | SubmitDone _ _ => None
  end.

Definition list_step (page page_size : Z) (email_q : option string)
    (token : string) (pc : list_pc) (sh : Shared) : option (list_pc * Shared) :=
  match pc with
  | AtAuth =>
      match fst (get_admin_token token (globals sh)) with
      | inl exc => Some (ListDone (inl exc), sh)
      | inr _ => Some (AtFilter, sh)
      end
  | AtFilter =>
      if truthy email_q then Some (AtIter 0 [], sh)
      else Some (AtPaginate (feedback_db (globals sh)), sh)
  | AtIter i acc =>
      match feedback_db (globals sh) !! i with
      | Some f =>
          Some (AtIter (S i)
                  (if decide (str_lower (email f)
                              = str_lower (default "" email_q))
                   then acc ++ [f] else acc), sh)
      | None => Some (AtPaginate acc, sh)
      end
  | AtPaginate filtered =>
      Some (ListDone (inr (paginate filtered page page_size)), sh)
  | ListDone _ => None
  end.

(** One step of a thread; [None] when it is blocked on the lock or has
    returned. *)
Definition thread_step (t : thread) (sh : Shared) : option (thread * Shared) :=
  match t with
  | SubmitThread fb pc =>
      match submit_step fb pc sh with
      | Some (pc', sh') => Some (SubmitThread fb pc', sh')
      | None => None
      end
  | ListThread page page_size email_q token pc =>
      match list_step page page_size email_q token pc sh with
      | Some (pc', sh') =>
          Some (ListThread page page_size email_q token pc', sh')
      | None => None
      end
  end.

(** A thread that has just received its request. *)
Definition fresh (t : thread) : bool :=
  match t with
  | SubmitThread _ AtAcquire => true
  | ListThread _ _ _ _ AtAuth => true
  | _ => false
  end.

Record config : Type := mk_config {
  shared : Shared;
  threads : gmap nat thread
}.

Definition initial_config : config :=
  {| shared := {| globals := initial_store; feedback_lock := false |};
     threads := ∅ |}.

Inductive step : config → config → Prop :=
  | step_spawn c tid t :
      threads c !! tid = None →
      fresh t = true →
      step c {| shared := shared c; threads := <[tid := t]> (threads c) |}
  | step_thread c tid t t' sh' :
      threads c !! tid = Some t →
      thread_step t (shared c) = Some (t', sh') →
      step c {| shared := sh'; threads := <[tid := t']> (threads c) |}.

Definition reachable (c : config) : Prop := rtc step initial_config c.

(** The id a submitting thread has received so far, if any. *)
Definition received_id (t : thread) : option Z :=
  match t with
  | SubmitThread _ (AtAppend r | AtLoadCounter r | AtStoreCounter r _
                    | AtRelease r | AtRespond r) => Some (id r)
  | SubmitThread _ (SubmitDone response _) => Some (out_id (feedback response))
  | _ => None
  end.

(** The request a thread is serving. *)
Definition request_of (t : thread) : request :=
  match t with
  | SubmitThread fb _ => Submit fb
  | ListThread page page_size email_q token _ =>
      List_feedbacks page page_size email_q token
  end.

(** *** The invariant of concurrent execution

    [owners] lists, for each position of [feedback_db], the thread that
    appended the record stored there. *)

(** Thread [tid], serving submission [fb], has appended [r]. *)
Definition owns (db : list feedback_record) (owners : list nat) (tid : nat)
    (fb : FeedbackIn) (r : feedback_record) : Prop :=
  ∃ i : nat,
    db !! i = Some r ∧ owners !! i = Some tid ∧
    r = {| id := Z.of_nat i + 1; email := in_email fb;
           message := in_message fb |}.

(** The program points between taking and releasing the lock. *)
Definition in_cs (t : thread) : bool :=
  match t with
  | SubmitThread _ (AtBuild | AtAppend _ | AtLoadCounter _
                    | AtStoreCounter _ _ | AtRelease _) => true
  | _ => false
  end.

Definition submit_inv (owners : list nat) (sh : Shared) (tid : nat)
    (fb : FeedbackIn) (pc : submit_pc) : Prop :=
  let db := feedback_db (globals sh) in
  let c := feedback_id_counter (globals sh) in
  let len := Z.of_nat (length db) in
  match pc with
  | AtAcquire => True
  | AtBuild => feedback_lock sh = true ∧ c = len + 1
  | AtAppend r =>
      feedback_lock sh = true ∧ c = len + 1 ∧
      r = {| id := c; email := in_email fb; message := in_message fb |}
  | AtLoadCounter r =>
      feedback_lock sh = true ∧ c = len ∧ owns db owners tid fb r
  | AtStoreCounter r v =>
      feedback_lock sh = true ∧ c = len ∧ v = c ∧ owns db owners tid fb r
  | AtRelease r =>
      feedback_lock sh = true ∧ c = len + 1 ∧ owns db owners tid fb r
  | AtRespond r => owns db owners tid fb r
  | SubmitDone response tasks =>
      ∃ r, owns db owners tid fb r ∧
           (response, tasks)
           = ({| success := true;
                 response_message :=
                   "Feedback received. Confirmation email sent.";
                 feedback := FeedbackOut_of r |},
              [Task_send_confirmation_email (in_email fb) (in_message fb)])
  end.

Definition list_inv (sh : Shared) (page page_size : Z)
    (email_q : option string) (token : string) (pc : list_pc) : Prop :=
  let db := feedback_db (globals sh) in
  match pc with
  | AtAuth => True
  | AtFilter => token = ADMIN_TOKEN
  | AtIter i acc =>
      token = ADMIN_TOKEN ∧ truthy email_q = true ∧
      (i ≤ length db)%nat ∧ acc = filter_by_email (take i db) email_q
  | AtPaginate filtered =>
      token = ADMIN_TOKEN ∧
      ∃ k, (k ≤ length db)%nat ∧ filtered = filter_by_email (take k db) email_q
  | ListDone result =>
      ∃ k, (k ≤ length db)%nat ∧
           result = fst (get_feedbacks_route page page_size email_q token
                           {| feedback_db := take k db;
                              feedback_id_counter := Z.of_nat k + 1 |})
  end.

Definition thread_inv (owners : list nat) (sh : Shared) (tid : nat)
    (t : thread) : Prop :=
  match t with
  | SubmitThread fb pc => submit_inv owners sh tid fb pc
  | ListThread page page_size email_q token pc =>
      list_inv sh page page_size email_q token pc
  end.

Record Inv (owners : list nat) (c : config) : Prop := mk_Inv {
  (* every stored record is whole: the record some submission built *)
  inv_whole : ∀ i r,
    feedback_db (globals (shared c)) !! i = Some r →
    ∃ tid t fb,
      threads c !! tid = Some t ∧ request_of t = Submit fb ∧
      r = {| id := Z.of_nat i + 1; email := in_email fb;
             message := in_message fb |};
  inv_owners : length owners = length (feedback_db (globals (shared c)));
  (* while the lock is free the counter is one past the stored records *)
  inv_free :
    feedback_lock (shared c) = false →
    feedback_id_counter (globals (shared c))
    = Z.of_nat (length (feedback_db (globals (shared c)))) + 1;
  (* at most one thread is between acquire and release *)
  inv_mutex : ∀ tid1 tid2 t1 t2,
    threads c !! tid1 = Some t1 → threads c !! tid2 = Some t2 →
    in_cs t1 = true → in_cs t2 = true → tid1 = tid2;
  inv_threads : ∀ tid t, threads c !! tid = Some t →
    thread_inv owners (shared c) tid t
}.

(** *** Schedules

    A schedule names, step by step, the request that arrives or the thread
    that runs; it is the executable form of [step]. *)

Inductive event : Type :=
  | Arrive (tid : nat) (rq : request)
  | Run (tid : nat).

Definition start (rq : request) : thread :=
  match rq with
  | Submit fb => SubmitThread fb AtAcquire
  | List_feedbacks page page_size email_q token =>
      ListThread page page_size email_q token AtAuth
  end.

(** [None] when the event cannot happen: the thread id is taken, or the
    thread does not exist, is blocked or has returned. *)
Definition schedule_step (c : config) (ev : event) : option config :=
  match ev with
  | Arrive tid rq =>
      match threads c !! tid with
      | None => Some {| shared := shared c;
                        threads := <[tid := start rq]> (threads c) |}
      | Some _ => None
      end
  | Run tid =>
      match threads c !! tid with
      | Some t =>
          match thread_step t (shared c) with
          | Some (t', sh') =>
              Some {| shared := sh'; threads := <[tid := t']> (threads c) |}
          | None => None
          end
      | None => None
      end
  end.

Fixpoint schedule (evs : list event) (c : config) : option config :=
  match evs with
  | [] => Some c
  | ev :: evs' =>
      match schedule_step c ev with
      | Some c' => schedule evs' c'
      | None => None
      end
  end.

(** Two submissions and a filtered listing, interleaved: the listing
    starts its comprehension while the first submission is between append
    and release, and the second submission waits for the lock. *)
Definition example_schedule : list event :=
  [ Arrive 0 (Submit {| in_email := "u1@example.com";
                        in_message := "Great experience here!" |});
    Arrive 1 (Submit {| in_email := "U1@Example.com";
                        in_message := "I found a bug in the dashboard." |});
    Arrive 2 (List_feedbacks 1 10 (Some "u1@example.com") ADMIN_TOKEN);
    Run 0; Run 2; Run 0; Run 2; Run 0; Run 2; Run 0; Run 0; Run 0;
    Run 1; Run 1; Run 1; Run 2; Run 1; Run 1; Run 2; Run 1; Run 0; Run 2;
    Run 1 ].

Definition example_run : config :=
  default initial_config (schedule example_schedule initial_config).

(** A thread that has returned. *)
Definition finished (t : thread) : bool :=
  match t with
  | SubmitThread _ (SubmitDone _ _) => true
  | ListThread _ _ _ _ (ListDone _) => true
  | _ => false
  end.

(** A thread that runs [n] steps in a row. *)
Definition run_alone (tid : nat) (n : nat) (c : config) : option config :=
  schedule (replicate n (Run tid)) c.

(** ** Request validation (lines 23-25 and 135-137)

    The constraints the schemas and the query parameters declare, as the
    framework checks them before it calls a handler. *)

(** A byte that continues a UTF-8 sequence (10xxxxxx). *)
Definition is_continuation (c : ascii) : bool :=
  let n := nat_of_ascii c in ((128 <=? n)%nat && (n <? 192)%nat)%bool.

(** [len] of a [str]: the number of characters, which is the number of
    bytes of its UTF-8 form that start a sequence. *)
Fixpoint char_length (s : string) : nat :=
  match s with
  | EmptyString => 0
  | String c s' => ((if is_continuation c then 0 else 1) + char_length s')%nat
  end.

(** [min_length=10, max_length=1000] on the message of [FeedbackIn]. *)
Definition valid_message (m : string) : bool :=
  ((10 <=? char_length m)%nat && (char_length m <=? 1000)%nat)%bool.

(** The body of a submission turned into a [FeedbackIn].  The syntax
    check of [EmailStr] is the parameter [validate_email]: [None] when it
    rejects the string, [Some e] with the string the field then holds. *)
Definition FeedbackIn_validate (validate_email : string → option string)
    (raw_email raw_message : string) : option FeedbackIn :=
  match validate_email raw_email with
  | Some e =>
      if valid_message raw_message
      then Some {| in_email := e; in_message := raw_message |}
      else None
  | None => None
  end.

Inductive submit_outcome : Type :=
  | Created (response : FeedbackSubmitResponse) (tasks : BackgroundTasks)
  | Unprocessable                      (* status 422, handler not called *)
  | Failed (exc : HTTPException).

(** The user route with its validation: the handler runs only on a body
    that validates. *)
Definition submit_route (validate_email : string → option string)
    (raw_email raw_message : string) (st : Store) : submit_outcome * Store :=
  match FeedbackIn_validate validate_email raw_email raw_message with
  | Some fb =>
      match submit_feedback fb [] st with
      | (inr (response, tasks), st') => (Created response tasks, st')
      | (inl exc, st') => (Failed exc, st')
      end
  | None => (Unprocessable, st)
  end.

(** The store after a sequence of submission bodies, oldest first. *)
Definition submit_route_run (validate_email : string → option string)
    (bodies : list (string * string)) : Store :=
  foldl (λ st body, snd (submit_route validate_email body.1 body.2 st))
    initial_store bodies.

(** An integer query parameter declared with a default, a lower bound and
    possibly an upper bound: the default when absent, [None] (status 422)
    when out of bounds. *)
Definition query_int (default : Z) (ge : Z) (le : option Z) (raw : option Z)
  : option Z :=
  match raw with
  | None => Some default
  | Some v =>
      if (bool_decide (ge ≤ v)
          && match le with Some hi => bool_decide (v ≤ hi) | None => true end)%bool
      then Some v else None
  end.

(** Line 135. *)
Definition validate_page : option Z → option Z := query_int 1 1 None.

(** Line 136. *)
Definition validate_page_size : option Z → option Z :=
  query_int 10 1 (Some 50).

(** ** Pages of a listing *)

(** The records on one page of a listing. *)
Definition listed (st : Store) (email_q : option string)
    (page page_size : Z) : list FeedbackOut :=
  match fst (get_feedbacks page page_size email_q true st) with
  | inr out => feedbacks out
  | inl _ => []
  end.

(** Pages 1 to [k], one after the other. *)
Definition first_pages (st : Store) (email_q : option string)
    (page_size : Z) (k : nat) : list FeedbackOut :=
  concat ((λ p : nat, listed st email_q (Z.of_nat p) page_size) <$> seq 1 k).

(** ** Histories of whole requests *)

(** The world after one submission has been served and its background
    tasks have run. *)
Definition serve_world (w : World) (fb : FeedbackIn) : World :=
  snd (post_submit fb w).

(** ** The listing handler over any lower-casing

    Lines 140-155 with [str.lower] as the parameter [lower]. *)

Section lower_casing.
Variable lower : string → string.

Definition filter_by_email_with (db : list feedback_record)
    (email_q : option string) : list feedback_record :=
  if truthy email_q
  then filter (λ f, lower (email f) = lower (default "" email_q)) db
  else db.

Definition get_feedbacks_with (page page_size : Z) (email_q : option string)
    (token_auth : bool) : M FeedbackListOut :=
  db ← gets feedback_db;
  mret (paginate (filter_by_email_with db email_q) page page_size).

(** The total a listing reports. *)
Definition total_listed_with (st : Store) (email_q : option string)
    (page page_size : Z) : option Z :=
  match fst (get_feedbacks_with page page_size email_q true st) with
  | inr out => Some (total out)
  | inl _ => None
  end.

End lower_casing.

(** Text of ASCII characters only. *)
Fixpoint is_ascii (s : string) : bool :=
  match s with
  | EmptyString => true
  | String c s' => ((nat_of_ascii c <? 128)%nat && is_ascii s')%bool
  end.

(** A lower-casing function that, like [str.lower], lower-cases ASCII
    text letter by letter. *)
Definition extends_ascii_lower (lower : string → string) : Prop :=
  ∀ s, is_ascii s = true → lower s = str_lower s.

(** * Properties of the sequential handlers *)

(** ** Slices *)

Section slices.
Context {A : Type}.
Implicit Types l : list A.

(** A slice whose bounds are not negative takes [n] elements after
    dropping [start], whatever the length of the list. *)
Lemma py_slice_take_drop l (start n : Z) :
  0 ≤ start → 0 ≤ n →
  py_slice l start (start + n) = take (Z.to_nat n) (drop (Z.to_nat start) l).
Proof.
  intros Hs Hn. unfold py_slice, slice_adjust.
  repeat case_bool_decide; try lia.
  - rewrite Z.sub_diag, (drop_ge l (Z.to_nat start)) by lia.
    by rewrite take_nil.
  - rewrite !take_ge; [done | rewrite length_drop; lia ..].
  - f_equal. lia.
Qed.

Lemma py_slice_whole l (n : Z) :
  Z.of_nat (length l) ≤ n → py_slice l 0 n = l.
Proof.
  intros Hn. rewrite <- (Z.add_0_l n) at 1.
  rewrite py_slice_take_drop by lia.
  rewrite drop_0. apply take_ge. lia.
Qed.
End slices.

(** ** Running the monad *)

Lemma submit_feedback_run (fb : FeedbackIn) (bg : BackgroundTasks) (st : Store) :
  submit_feedback fb bg st =
    (inr ({| success := true;
             response_message := "Feedback received. Confirmation email sent.";
             feedback := {| out_id := feedback_id_counter st;
                            out_email := in_email fb;
                            out_message := in_message fb |} |},
          bg ++ [Task_send_confirmation_email (in_email fb) (in_message fb)]),
     {| feedback_db := feedback_db st
                         ++ [{| id := feedback_id_counter st;
                                email := in_email fb;
                                message := in_message fb |}];
        feedback_id_counter := feedback_id_counter st + 1 |}).
Proof. reflexivity. Qed.

Lemma get_feedbacks_run (page page_size : Z) (email_q : option string)
    (token_auth : bool) (st : Store) :
  get_feedbacks page page_size email_q token_auth st =
    (inr (paginate (filter_by_email (feedback_db st) email_q) page page_size),
     st).
Proof. reflexivity. Qed.

Lemma get_admin_token_run (token : string) (st : Store) :
  get_admin_token token st =
    (if bool_decide (token ≠ ADMIN_TOKEN)
     then inl {| status_code := 401; detail := "Invalid admin token." |}
     else inr true, st).
Proof. unfold get_admin_token. by case_bool_decide. Qed.

Lemma get_feedbacks_route_run (page page_size : Z) (email_q : option string)
    (token : string) (st : Store) :
  get_feedbacks_route page page_size email_q token st =
    (if bool_decide (token ≠ ADMIN_TOKEN)
     then inl {| status_code := 401; detail := "Invalid admin token." |}
     else inr (paginate (filter_by_email (feedback_db st) email_q)
                 page page_size), st).
Proof.
  unfold get_feedbacks_route, mbind, M_bind.
  rewrite get_admin_token_run. by case_bool_decide.
Qed.

Lemma serve_submit (st : Store) (fb : FeedbackIn) :
  serve st (Submit fb) =
    {| feedback_db := feedback_db st
                        ++ [{| id := feedback_id_counter st;
                               email := in_email fb;
                               message := in_message fb |}];
       feedback_id_counter := feedback_id_counter st + 1 |}.
Proof. reflexivity. Qed.

Lemma serve_list (st : Store) page page_size email_q token :
  serve st (List_feedbacks page page_size email_q token) = st.
Proof. unfold serve. by rewrite get_feedbacks_route_run. Qed.

Lemma run_snoc (rqs : list request) (rq : request) :
  run (rqs ++ [rq]) = serve (run rqs) rq.
Proof. unfold run. by rewrite foldl_app. Qed.

Lemma submissions_snoc (rqs : list request) (rq : request) :
  submissions (rqs ++ [rq]) =
    submissions rqs ++ match rq with Submit fb => [fb] | _ => [] end.
Proof. unfold submissions. rewrite omap_app. by destruct rq. Qed.

(** The store after a history holds the submissions of the history, in
    order, numbered from 1, and the counter is one past their number. *)
Lemma run_store (rqs : list request) :
  run rqs =
    {| feedback_db :=
         imap (λ i fb, {| id := Z.of_nat i + 1; email := in_email fb;
                          message := in_message fb |}) (submissions rqs);
       feedback_id_counter := Z.of_nat (length (submissions rqs)) + 1 |}.
Proof.
  induction rqs as [|rq rqs IH] using rev_ind; [done|].
  rewrite run_snoc, IH, submissions_snoc.
  destruct rq as [fb|page page_size email_q token].
  - rewrite serve_submit; simpl. rewrite imap_app, length_app; simpl.
    rewrite Nat.add_0_r. f_equal. lia.
  - rewrite serve_list, app_nil_r. done.
Qed.

Lemma imap_ids (fbs : list FeedbackIn) :
  id <$> imap (λ i fb, {| id := Z.of_nat i + 1; email := in_email fb;
                          message := in_message fb |}) fbs
  = seqZ 1 (Z.of_nat (length fbs)).
Proof.
  induction fbs as [|fb fbs IH] using rev_ind; [done|].
  rewrite length_app, Nat2Z.inj_add, seqZ_app by lia.
  rewrite imap_app, fmap_app, IH. simpl.
  by rewrite Nat.add_0_r, Z.add_comm.
Qed.

(** ** Submission *)

(** C1. On a store whose counter is [n], [submit_feedback] builds the
    record with id [n] and the e-mail and message of the request, appends
    it at the end of [feedback_db], moves the counter to [n + 1] and
    answers with that record.  The first submission on the empty store is
    answered with id 1 and the one after it with id 2. *)
Theorem submit_feedback_appends_and_returns
    (st : Store) (fb : FeedbackIn) (bg : BackgroundTasks) :
  let n := feedback_id_counter st in
  let r := {| id := n; email := in_email fb; message := in_message fb |} in
  (∃ response tasks st',
      submit_feedback fb bg st = (inr (response, tasks), st') ∧
      success response = true ∧
      feedback response = FeedbackOut_of r ∧
      feedback_db st' = feedback_db st ++ [r] ∧
      last (feedback_db st') = Some r ∧
      feedback_id_counter st' = n + 1) ∧
  (∀ fb1 fb2 : FeedbackIn,
      issued_id fb1 initial_store = Some 1 ∧
      issued_id fb2 (serve initial_store (Submit fb1)) = Some 2) ∧
  fst (submit_feedback
         {| in_email := "u1@example.com";
            in_message := "Great experience here!" |} [] initial_store)
  = inr ({| success := true;
            response_message := "Feedback received. Confirmation email sent.";
            feedback := {| out_id := 1; out_email := "u1@example.com";
                           out_message := "Great experience here!" |} |},
         [Task_send_confirmation_email "u1@example.com"
            "Great experience here!"]).
Proof.
  intros n r. split; [|split].
  - eexists _, _, _. rewrite submit_feedback_run.
    split; [reflexivity|]. simpl. split_and!; try done.
    apply last_snoc.
  - intros fb1 fb2. split; reflexivity.
  - reflexivity.
Qed.

(** C2. After any sequence of submissions and listings served from the
    empty store, the stored ids are 1, 2, ..., count in that order, the
    counter is count + 1, the next id handed out is above every stored
    one, and an id handed out later in a history is above every id handed
    out earlier. *)
Theorem ids_are_one_to_count (rqs : list request) :
  let st := run rqs in
  let count := Z.of_nat (length (feedback_db st)) in
  id <$> feedback_db st = seqZ 1 count ∧
  feedback_id_counter st = count + 1 ∧
  length (feedback_db st) = length (submissions rqs) ∧
  (∀ fb, issued_id fb st = Some (count + 1) ∧
         ∀ r, r ∈ feedback_db st → 1 ≤ id r < count + 1) ∧
  (∀ fb fb' rqs' k k',
      issued_id fb st = Some k →
      issued_id fb' (run (rqs ++ Submit fb :: rqs')) = Some k' →
      k < k').
Proof.
  intros st count.
  assert (Hids : id <$> feedback_db st = seqZ 1 count).
  { subst count st. rewrite run_store; simpl.
    by rewrite imap_ids, length_imap. }
  assert (Hcnt : feedback_id_counter st = count + 1).
  { subst count st. rewrite run_store; simpl. by rewrite length_imap. }
  assert (Hlen : length (feedback_db st) = length (submissions rqs)).
  { subst st. rewrite run_store; simpl. by rewrite length_imap. }
  split_and!; try done.
  - intros fb. split.
    + unfold issued_id. rewrite submit_feedback_run; simpl. by rewrite Hcnt.
    + intros r Hr.
      assert (id r ∈ seqZ 1 count) as Hin
        by (rewrite <- Hids; by apply list_elem_of_fmap_2).
      apply elem_of_seqZ in Hin. lia.
  - intros fb fb' rqs' k k'. unfold issued_id.
    rewrite !submit_feedback_run; simpl.
    intros [= <-] [= <-]. rewrite Hcnt. subst count. rewrite Hlen.
    rewrite run_store; simpl. unfold submissions.
    rewrite omap_app, length_app; simpl. lia.
Qed.

(** ** Frame *)

(** C8. A submission leaves every stored record where it was and adds one
    record at the end; a listing, through the handler or through the
    route, leaves the list and the counter as they were. *)
Theorem stored_records_are_never_changed (st : Store) :
  (∀ fb bg,
      let st' := snd (submit_feedback fb bg st) in
      (∃ r, feedback_db st' = feedback_db st ++ [r]) ∧
      length (feedback_db st') = S (length (feedback_db st)) ∧
      (∀ i x, feedback_db st !! i = Some x → feedback_db st' !! i = Some x)) ∧
  (∀ page page_size email_q token_auth,
      snd (get_feedbacks page page_size email_q token_auth st) = st) ∧
  (∀ page page_size email_q token,
      snd (get_feedbacks_route page page_size email_q token st) = st).
Proof.
  split_and!.
  - intros fb bg. rewrite submit_feedback_run; simpl. split_and!.
    + by eexists.
    + rewrite length_app; simpl. lia.
    + intros i x Hx. by apply lookup_app_l_Some.
  - intros. by rewrite get_feedbacks_run.
  - intros. by rewrite get_feedbacks_route_run.
Qed.

(** ** Listing *)

Lemma truthy_Some (e : string) : truthy (Some e) = true ↔ e ≠ "".
Proof.
  simpl. destruct (String.eqb_spec e ""); simpl; split; congruence.
Qed.

(** C3. For a page number of at least 1 and a page size between 1 and 50,
    [get_feedbacks] answers with the number of retained records as total
    and with the records of the retained list from position
    [(page - 1) * page_size], at most [page_size] of them: nothing when
    that position is at or past the end, the remaining records when fewer
    than [page_size] are left.  With five stored records, page 2 of size 2
    holds the third and fourth, and page 10 of size 2 is empty with
    total 5. *)
Theorem get_feedbacks_returns_clamped_page
    (st : Store) (email_q : option string) (page page_size : Z)
    (token_auth : bool) :
  1 ≤ page → 1 ≤ page_size ≤ 50 →
  let retained := filter_by_email (feedback_db st) email_q in
  let start := Z.to_nat ((page - 1) * page_size) in
  let n := Z.to_nat page_size in
  (∃ out,
      fst (get_feedbacks page page_size email_q token_auth st) = inr out ∧
      total out = Z.of_nat (length retained) ∧
      feedbacks out = FeedbackOut_of <$> take n (drop start retained) ∧
      length (feedbacks out) = (n `min` (length retained - start))%nat ∧
      ((length retained ≤ start)%nat → feedbacks out = []) ∧
      ((length retained < start + n)%nat →
         feedbacks out = FeedbackOut_of <$> drop start retained) ∧
      (∀ i, (i < n)%nat →
         feedbacks out !! i = FeedbackOut_of <$> retained !! (start + i)%nat)) ∧
  (∀ r1 r2 r3 r4 r5 c,
      let five := {| feedback_db := [r1; r2; r3; r4; r5];
                     feedback_id_counter := c |} in
      fst (get_feedbacks 2 2 None token_auth five)
      = inr {| total := 5; page := 2; page_size := 2;
               feedbacks := [FeedbackOut_of r3; FeedbackOut_of r4] |} ∧
      fst (get_feedbacks 10 2 None token_auth five)
      = inr {| total := 5; page := 10; page_size := 2; feedbacks := [] |}).
Proof.
  intros Hpage Hsize retained start n. split.
  - eexists. rewrite get_feedbacks_run; simpl. split; [reflexivity|].
    fold retained.
    assert (Hslice : feedbacks (paginate retained page page_size)
                     = FeedbackOut_of <$> take n (drop start retained)).
    { unfold paginate; simpl.
      rewrite py_slice_take_drop by nia. done. }
    rewrite Hslice. split_and!; try done.
    + by rewrite length_fmap, length_take, length_drop.
    + intros Hge. by rewrite drop_ge, take_nil.
    + intros Hlt. rewrite take_ge; [done|]. rewrite length_drop. lia.
    + intros i Hi.
      by rewrite list_lookup_fmap, lookup_take_lt, lookup_drop.
  - intros. split; reflexivity.
Qed.

Lemma get_feedbacks_returns_clamped_page_witness :
  let five :=
    {| feedback_db :=
         (λ k, {| id := k; email := "user@example.com";
                  message := "I found a bug in the dashboard." |})
           <$> seqZ 1 5;
       feedback_id_counter := 6 |} in
  (1 ≤ 2 ∧ 1 ≤ 2 ≤ 50) ∧
  ∃ out,
    fst (get_feedbacks 2 2 (Some "USER@example.com") true five) = inr out ∧
    total out = 5 ∧ out_id <$> feedbacks out = [3; 4].
Proof.
  intros five. split; [lia|].
  destruct (get_feedbacks_returns_clamped_page five
              (Some "USER@example.com") 2 2 true) as [(out & Hout & Htot & Hfb & _) _];
    [lia | lia |].
  exists out. split; [done|]. rewrite Htot, Hfb. split; reflexivity.
Defined.

(** C6. Without a filter, the first page of a size that is at least the
    number of stored records lists every stored record once, in stored
    order; after a history served from the empty store these are the
    submissions of the history, oldest first, with ids 1, 2, ... *)
Theorem unfiltered_first_page_is_whole_store
    (st : Store) (page_size : Z) (token_auth : bool) :
  Z.of_nat (length (feedback_db st)) ≤ page_size →
  fst (get_feedbacks 1 page_size None token_auth st)
  = inr {| total := Z.of_nat (length (feedback_db st));
           page := 1; page_size := page_size;
           feedbacks := FeedbackOut_of <$> feedback_db st |} ∧
  (∀ rqs, st = run rqs →
      FeedbackOut_of <$> feedback_db st
      = imap (λ i fb, {| out_id := Z.of_nat i + 1; out_email := in_email fb;
                         out_message := in_message fb |}) (submissions rqs) ∧
      out_id <$> (FeedbackOut_of <$> feedback_db st)
      = seqZ 1 (Z.of_nat (length (submissions rqs)))).
Proof.
  intros Hsize. split.
  - rewrite get_feedbacks_run; simpl. unfold filter_by_email, paginate; simpl.
    by rewrite py_slice_whole.
  - intros rqs ->. rewrite run_store; simpl. split.
    + by rewrite fmap_imap.
    + rewrite <- list_fmap_compose.
      change (out_id ∘ FeedbackOut_of) with id.
      apply imap_ids.
Qed.

Lemma unfiltered_first_page_is_whole_store_witness :
  let fb1 := {| in_email := "u1@example.com";
                in_message := "Great experience here!" |} in
  let fb2 := {| in_email := "u2@example.com";
                in_message := "I found a bug in the dashboard." |} in
  let st := run [Submit fb1; List_feedbacks 1 10 None "guess"; Submit fb2] in
  Z.of_nat (length (feedback_db st)) ≤ 10 ∧
  fst (get_feedbacks 1 10 None true st)
  = inr {| total := 2; page := 1; page_size := 10;
           feedbacks :=
             [ {| out_id := 1; out_email := "u1@example.com";
                  out_message := "Great experience here!" |};
               {| out_id := 2; out_email := "u2@example.com";
                  out_message := "I found a bug in the dashboard." |} ] |}.
Proof.
  intros fb1 fb2 st.
  assert (H : Z.of_nat (length (feedback_db st)) ≤ 10) by (vm_compute; congruence).
  split; [exact H|].
  exact (proj1 (unfiltered_first_page_is_whole_store st 10 true H)).
Defined.

(** C10. An empty e-mail filter is not a filter: the handler answers
    [email=""] as it answers a request without the parameter, with the
    whole store retained; the filtering branch is taken exactly for a
    filter that is present and not empty. *)
Theorem empty_filter_is_no_filter
    (st : Store) (page page_size : Z) (token_auth : bool) :
  get_feedbacks page page_size (Some "") token_auth st
  = get_feedbacks page page_size None token_auth st ∧
  filter_by_email (feedback_db st) (Some "") = feedback_db st ∧
  total (paginate (filter_by_email (feedback_db st) (Some "")) page page_size)
  = Z.of_nat (length (feedback_db st)) ∧
  (∀ email_q, truthy email_q = true ↔ ∃ e, email_q = Some e ∧ e ≠ "").
Proof.
  split_and!; try reflexivity.
  intros email_q. split.
  - intros Ht. destruct email_q as [e|]; [|done].
    exists e. split; [done|]. by apply truthy_Some.
  - intros (e & -> & He). by apply truthy_Some.
Qed.

(** ** Authorisation *)

(** C5. The admin route fails with status 401 exactly when the token in
    the request is not [ADMIN_TOKEN].  The failure is the same value for
    every store, page, page size and filter, so it carries no feedback
    data, and the store after the request is the store before it. *)
Theorem route_unauthorized_iff_wrong_token
    (st : Store) (page page_size : Z) (email_q : option string)
    (token : string) :
  let unauthorized :=
    {| status_code := 401; detail := "Invalid admin token." |} in
  ((∃ exc, fst (get_feedbacks_route page page_size email_q token st) = inl exc
           ∧ status_code exc = HTTP_401_UNAUTHORIZED)
   ↔ token ≠ ADMIN_TOKEN) ∧
  ((∃ out, fst (get_feedbacks_route page page_size email_q token st) = inr out)
   ↔ token = ADMIN_TOKEN) ∧
  (∀ exc, fst (get_feedbacks_route page page_size email_q token st) = inl exc →
     ∀ st' page' page_size' email_q',
       get_feedbacks_route page' page_size' email_q' token st'
       = (inl unauthorized, st') ∧
       http_exception_handler exc
       = {| json_status_code := 401; json_detail := "Invalid admin token." |}) ∧
  snd (get_feedbacks_route page page_size email_q token st) = st.
Proof.
  intros unauthorized. rewrite !get_feedbacks_route_run; simpl.
  case_bool_decide as Htok; simpl.
  - split_and!; try done.
    + split; [done|]. intros _. by eexists.
    + split; [by intros [? ?]|]. intros ->. by destruct Htok.
    + intros exc [= <-] st' page' page_size' email_q'.
      rewrite get_feedbacks_route_run. by rewrite bool_decide_true.
  - split_and!; try done.
    + split; [by intros (? & ? & ?)|]. intros Hne. by destruct Hne.
    + split; [done|]. intros _. by eexists.
Qed.

(** ** Notification *)

(** C7. A call of [submit_feedback] adds one task to the background tasks
    it was given, and that task is [send_confirmation_email] on the
    e-mail and message of the record it has just stored.  The response the
    client receives is the one the handler computed, whatever the state of
    the output the task later writes to, and the task runs once. *)
Theorem notification_scheduled_once
    (st : Store) (fb : FeedbackIn) (bg : BackgroundTasks) :
  (∃ response tasks st' r,
      submit_feedback fb bg st = (inr (response, tasks), st') ∧
      last (feedback_db st') = Some r ∧
      tasks = bg ++ [Task_send_confirmation_email (email r) (message r)] ∧
      email r = in_email fb ∧ message r = in_message fb ∧
      length tasks = S (length bg)) ∧
  (∀ out, ∃ response st',
      submit_feedback fb [] st
      = (inr (response, [Task_send_confirmation_email (in_email fb)
                           (in_message fb)]), st') ∧
      post_submit fb {| store := st; stdout := out |}
      = (inr response,
         {| store := st';
            stdout := send_confirmation_email (in_email fb) (in_message fb)
                        out |})) ∧
  (∀ out out',
      fst (post_submit fb {| store := st; stdout := out |})
      = fst (post_submit fb {| store := st; stdout := out' |}) ∧
      store (snd (post_submit fb {| store := st; stdout := out |}))
      = store (snd (post_submit fb {| store := st; stdout := out' |}))).
Proof.
  split_and!.
  - eexists _, _, _, _. rewrite submit_feedback_run.
    split; [reflexivity|]. simpl. rewrite last_snoc. split_and!; try done.
    rewrite length_app; simpl. lia.
  - intros out. eexists _, _. unfold post_submit.
    rewrite submit_feedback_run. split; reflexivity.
  - intros out out'. unfold post_submit.
    cbn [store stdout]. rewrite submit_feedback_run. split; reflexivity.
Qed.

(** ** E-mail filter *)

Lemma get_feedbacks_with_run (lower : string → string)
    (page page_size : Z) (email_q : option string) (token_auth : bool)
    (st : Store) :
  get_feedbacks_with lower page page_size email_q token_auth st =
    (inr (paginate (filter_by_email_with lower (feedback_db st) email_q)
            page page_size), st).
Proof. reflexivity. Qed.

(** [get_feedbacks] is the handler at the ASCII lower-casing. *)
Lemma get_feedbacks_with_str_lower
    (page page_size : Z) (email_q : option string) (token_auth : bool) :
  get_feedbacks_with str_lower page page_size email_q token_auth
  = get_feedbacks page page_size email_q token_auth.
Proof. reflexivity. Qed.

Lemma filter_by_email_with_present (lower : string → string)
    (db : list feedback_record) (e : string) :
  e ≠ "" →
  filter_by_email_with lower db (Some e)
  = filter (λ f, lower (email f) = lower e) db.
Proof.
  intros He. unfold filter_by_email_with.
  apply truthy_Some in He. by rewrite He.
Qed.

Lemma filter_by_email_with_snoc (lower : string → string)
    (db : list feedback_record) (r : feedback_record) (e : string) :
  e ≠ "" →
  filter_by_email_with lower (db ++ [r]) (Some e)
  = if decide (lower (email r) = lower e)
    then filter_by_email_with lower db (Some e) ++ [r]
    else filter_by_email_with lower db (Some e).
Proof.
  intros He. rewrite !filter_by_email_with_present by done.
  rewrite filter_app, filter_cons, filter_nil.
  case_decide; [done|]. apply app_nil_r.
Qed.

(** C4. A filter that is present is an [EmailStr] and so not empty.  For
    every store and every such filter, whatever [str.lower] does, the
    handler retains exactly the stored records whose lower-cased e-mail
    equals the lower-cased filter, in stored order, and it retains every
    record when the filter is absent.  A record submitted with e-mail
    [A@B.com], which validation stores as [A@b.com], is retained and
    listed for the filter [a@b.com]. *)
Theorem nonempty_filter_retains_case_insensitive_matches
    (lower : string → string) (st : Store) (e : string)
    (page page_size : Z) (token_auth : bool) :
  e ≠ "" →
  let retained := filter_by_email_with lower (feedback_db st) (Some e) in
  retained = filter (λ f, lower (email f) = lower e) (feedback_db st) ∧
  (∀ f, f ∈ retained ↔ f ∈ feedback_db st ∧ lower (email f) = lower e) ∧
  retained `sublist_of` feedback_db st ∧
  fst (get_feedbacks_with lower page page_size (Some e) token_auth st)
  = inr (paginate retained page page_size) ∧
  filter_by_email_with lower (feedback_db st) None = feedback_db st ∧
  fst (get_feedbacks_with lower page page_size None token_auth st)
  = inr (paginate (feedback_db st) page page_size) ∧
  (extends_ascii_lower lower →
   ∀ (validate_email : string → option string) (m : string),
     validate_email "A@B.com" = Some "A@b.com" →
     valid_message m = true →
     let st' := snd (submit_route validate_email "A@B.com" m st) in
     let r := {| id := feedback_id_counter st; email := "A@b.com";
                 message := m |} in
     r ∈ filter_by_email_with lower (feedback_db st') (Some "a@b.com") ∧
     last (filter_by_email_with lower (feedback_db st') (Some "a@b.com"))
     = Some r ∧
     (feedback_db st = [] →
      fst (get_feedbacks_with lower 1 10 (Some "a@b.com") token_auth st')
      = inr {| total := 1; page := 1; page_size := 10;
               feedbacks := [FeedbackOut_of r] |})).
Proof.
  intros He retained.
  assert (Hret : retained
                 = filter (λ f, lower (email f) = lower e) (feedback_db st))
    by (by apply filter_by_email_with_present).
  split_and!; try done.
  - intros f. rewrite Hret, list_elem_of_filter. tauto.
  - rewrite Hret. apply sublist_filter.
  - intros Hlower validate_email m Hv Hm st' r.
    assert (Hst' : feedback_db st' = feedback_db st ++ [r]).
    { subst st'. unfold submit_route, FeedbackIn_validate.
      rewrite Hv, Hm, submit_feedback_run. done. }
    assert (Hmatch : lower (email r) = lower "a@b.com").
    { simpl. by rewrite !Hlower. }
    assert (Hsnoc : filter_by_email_with lower (feedback_db st') (Some "a@b.com")
                    = filter_by_email_with lower (feedback_db st)
                        (Some "a@b.com") ++ [r]).
    { rewrite Hst', filter_by_email_with_snoc by done.
      by rewrite decide_True. }
    split_and!.
    + rewrite Hsnoc. apply elem_of_app. right. by apply list_elem_of_singleton.
    + rewrite Hsnoc. apply last_snoc.
    + intros Hempty. rewrite get_feedbacks_with_run, Hsnoc, Hempty. done.
Qed.

Lemma nonempty_filter_retains_case_insensitive_matches_witness :
  let st :=
    {| feedback_db :=
         [ {| id := 1; email := "A@b.com"; message := "Great experience!" |};
           {| id := 2; email := "a@b.com.au";
              message := "I found a bug in the dashboard." |};
           {| id := 3; email := "a@b.com"; message := "Works well for me." |} ];
       feedback_id_counter := 4 |} in
  let normalise := λ raw : string,
    if String.eqb raw "A@B.com" then Some "A@b.com" else Some raw in
  "a@b.com" ≠ "" ∧
  id <$> filter_by_email_with str_lower (feedback_db st) (Some "a@b.com")
  = [1; 3] ∧
  extends_ascii_lower str_lower ∧
  fst (get_feedbacks_with str_lower 1 10 (Some "a@b.com") true
         (snd (submit_route normalise "A@B.com" "Great experience here!"
                 initial_store)))
  = inr {| total := 1; page := 1; page_size := 10;
           feedbacks := [ {| out_id := 1; out_email := "A@b.com";
                             out_message := "Great experience here!" |} ] |}.
Proof.
  intros st normalise.
  assert (Hne : "a@b.com" ≠ "") by discriminate.
  assert (Hlower : extends_ascii_lower str_lower) by (by intros s _).
  split; [exact Hne|]. split; [|split; [exact Hlower|]].
  - rewrite (proj1 (nonempty_filter_retains_case_insensitive_matches
                      str_lower st "a@b.com" 1 10 true Hne)).
    reflexivity.
  - destruct (nonempty_filter_retains_case_insensitive_matches
                str_lower initial_store "a@b.com" 1 10 true Hne)
      as (_ & _ & _ & _ & _ & _ & Hsubmitted).
    destruct (Hsubmitted Hlower normalise "Great experience here!"
                eq_refl eq_refl) as (_ & _ & Hlisted).
    exact (Hlisted eq_refl).
Defined.

(** * Properties of concurrent execution *)

Lemma owns_mono db kd owners ko tid fb r :
  owns db owners tid fb r → owns (db ++ kd) (owners ++ ko) tid fb r.
Proof.
  intros (i & Hdb & Hown & Hr). exists i.
  split_and!; [by apply lookup_app_l_Some .. | done].
Qed.

(** What the invariant says of a thread outside the critical section
    survives any change of the lock and the counter and any append. *)
Lemma thread_inv_frame owners ko sh sh' kd tid t :
  in_cs t = false →
  feedback_db (globals sh') = feedback_db (globals sh) ++ kd →
  thread_inv owners sh tid t → thread_inv (owners ++ ko) sh' tid t.
Proof.
  intros Hcs Hdb.
  destruct t as [fb pc | page page_size email_q token pc]; simpl.
  - destruct pc; simpl in *; try done; rewrite Hdb.
    + apply owns_mono.
    + intros (r & Hown & Heq). exists r. split; [by apply owns_mono | done].
  - destruct pc; simpl; try done; rewrite Hdb, length_app.
    + intros (Htok & Htruthy & Hi & Hacc). split_and!; try done; [lia|].
      by rewrite take_app_le.
    + intros (Htok & k & Hk & Hf). split; [done|]. exists k.
      split; [lia|]. by rewrite take_app_le.
    + intros (k & Hk & Hres). exists k. split; [lia|].
      by rewrite take_app_le.
Qed.

Lemma in_cs_locked owners sh tid t :
  thread_inv owners sh tid t → in_cs t = true → feedback_lock sh = true.
Proof.
  destruct t as [fb pc | ? ? ? ? pc]; [|done].
  destruct pc; simpl; try done; tauto.
Qed.

Lemma Inv_initial : Inv [] initial_config.
Proof.
  split; simpl; try done.
Qed.

(** A step that leaves the globals alone and keeps the thread on its side
    of the critical section preserves the invariant. *)
Lemma Inv_step_local owners c tid t t' :
  Inv owners c →
  threads c !! tid = Some t →
  in_cs t' = in_cs t →
  request_of t' = request_of t →
  thread_inv owners (shared c) tid t' →
  Inv owners {| shared := shared c; threads := <[tid := t']> (threads c) |}.
Proof.
  intros [Hwhole Hown Hfree Hmutex Hthreads] Ht Hcs Hreq Hinv.
  assert (Hback : ∀ tid0 t0,
             <[tid := t']> (threads c) !! tid0 = Some t0 →
             ∃ t1, threads c !! tid0 = Some t1 ∧ in_cs t1 = in_cs t0).
  { intros tid0 t0 [[<- <-]|[Hne H0]]%lookup_insert_Some; eauto. }
  split; simpl; try done.
  - intros i r Hr. destruct (Hwhole i r Hr) as (tid0 & t0 & fb & H0 & Hfb & ->).
    destruct (decide (tid0 = tid)) as [->|Hne].
    + exists tid, t', fb. rewrite lookup_insert_eq.
      split_and!; try done. simplify_eq. congruence.
    + exists tid0, t0, fb. by rewrite lookup_insert_ne.
  - intros tid1 tid2 t1 t2 H1 H2 Hc1 Hc2.
    destruct (Hback _ _ H1) as (u1 & Hu1 & E1).
    destruct (Hback _ _ H2) as (u2 & Hu2 & E2).
    eapply Hmutex; eauto; congruence.
  - intros tid0 t0 [[<- <-]|[Hne H0]]%lookup_insert_Some; eauto.
Qed.

(** A step of the thread that holds the lock, or that takes the free
    lock, may change the lock and the counter and append records it has
    built. *)
Lemma Inv_step_shared owners ko c sh' kd tid t t' :
  Inv owners c →
  threads c !! tid = Some t →
  in_cs t = true ∨ feedback_lock (shared c) = false →
  request_of t' = request_of t →
  feedback_db (globals sh') = feedback_db (globals (shared c)) ++ kd →
  length ko = length kd →
  (feedback_lock sh' = false →
   feedback_id_counter (globals sh')
   = Z.of_nat (length (feedback_db (globals sh'))) + 1) →
  (∀ j r, kd !! j = Some r →
     ∃ fb, request_of t = Submit fb ∧
           r = {| id := Z.of_nat (length (feedback_db (globals (shared c))) + j) + 1;
                  email := in_email fb; message := in_message fb |}) →
  thread_inv (owners ++ ko) sh' tid t' →
  Inv (owners ++ ko) {| shared := sh'; threads := <[tid := t']> (threads c) |}.
Proof.
  intros [Hwhole Hown Hfree Hmutex Hthreads] Ht Hexcl Hreq Hdb Hlen Hfree'
    Hnew Hinv.
  assert (Hothers : ∀ tid0 t0,
             tid0 ≠ tid → threads c !! tid0 = Some t0 → in_cs t0 = false).
  { intros tid0 t0 Hne H0. destruct (in_cs t0) eqn:Hcs0; [|done].
    destruct Hexcl as [Hcs|Hunlocked].
    - destruct Hne. eapply Hmutex; eauto.
    - pose proof (in_cs_locked _ _ _ _ (Hthreads _ _ H0) Hcs0). congruence. }
  split; simpl.
  - rewrite Hdb. intros i r [Hr|[Hi Hr]]%lookup_app_Some.
    + destruct (Hwhole i r Hr) as (tid0 & t0 & fb & H0 & Hfb & ->).
      destruct (decide (tid0 = tid)) as [->|Hne].
      * exists tid, t', fb. rewrite lookup_insert_eq.
        split_and!; try done. simplify_eq. congruence.
      * exists tid0, t0, fb. by rewrite lookup_insert_ne.
    + destruct (Hnew _ _ Hr) as (fb & Hfb & ->).
      exists tid, t', fb. rewrite lookup_insert_eq.
      split_and!; [done | congruence |]. do 2 f_equal. lia.
  - rewrite Hdb, !length_app. lia.
  - done.
  - intros tid1 tid2 t1 t2 H1 H2 Hc1 Hc2.
    destruct (decide (tid1 = tid)) as [->|Hne1].
    + destruct (decide (tid2 = tid)) as [->|Hne2]; [done|].
      rewrite lookup_insert_ne in H2 by done.
      rewrite (Hothers _ _ Hne2 H2) in Hc2. done.
    + rewrite lookup_insert_ne in H1 by done.
      rewrite (Hothers _ _ Hne1 H1) in Hc1. done.
  - intros tid0 t0 [[<- <-]|[Hne H0]]%lookup_insert_Some; [done|].
    eapply thread_inv_frame; eauto.
Qed.

Lemma owns_here db owners tid fb r :
  length owners = length db →
  r = {| id := Z.of_nat (length db) + 1; email := in_email fb;
         message := in_message fb |} →
  owns (db ++ [r]) (owners ++ [tid]) tid fb r.
Proof.
  intros Hlen Hr. exists (length db). split_and!; [| |done].
  - by apply list_lookup_middle.
  - by apply list_lookup_middle.
Qed.

Lemma submit_step_preserves owners c tid fb pc pc' sh' :
  Inv owners c →
  threads c !! tid = Some (SubmitThread fb pc) →
  submit_step fb pc (shared c) = Some (pc', sh') →
  ∃ owners',
    Inv owners' {| shared := sh';
                   threads := <[tid := SubmitThread fb pc']> (threads c) |}.
Proof.
  intros HI Ht Hstep.
  pose proof (inv_threads _ _ HI _ _ Ht) as Hpc.
  pose proof (inv_owners _ _ HI) as Hown.
  destruct pc; simpl in Hstep, Hpc.
  - (* acquire *)
    destruct (feedback_lock (shared c)) eqn:Hlock; [done|].
    injection Hstep as <- <-. exists (owners ++ []).
    eapply (Inv_step_shared _ _ _ _ []); eauto; simpl.
    + by rewrite app_nil_r.
    + done.
    + done.
    + split; [done|]. by apply (inv_free _ _ HI).
  - (* build the record *)
    injection Hstep as <- <-. exists owners. destruct Hpc as [Hlock Hc].
    eapply Inv_step_local; eauto. simpl. by rewrite Hc.
  - (* append *)
    injection Hstep as <- <-. exists (owners ++ [tid]).
    destruct Hpc as (Hlock & Hc & Hr).
    eapply (Inv_step_shared _ _ _ _ [r]); eauto; simpl.
    + congruence.
    + intros [|j] r' Hj; [|done]. injection Hj as <-.
      exists fb. split; [done|]. rewrite Hr, Hc. do 2 f_equal.
      rewrite Nat.add_0_r. done.
    + split_and!; [done | rewrite length_app; simpl; lia |].
      apply owns_here; [done|]. by rewrite Hr, Hc.
  - (* read the counter *)
    injection Hstep as <- <-. exists owners. destruct Hpc as (Hlock & Hc & Hr).
    eapply Inv_step_local; eauto. simpl. done.
  - (* write the counter *)
    injection Hstep as <- <-. exists (owners ++ []).
    destruct Hpc as (Hlock & Hc & Hv & Hr).
    eapply (Inv_step_shared _ _ _ _ []); eauto; simpl.
    + by rewrite app_nil_r.
    + congruence.
    + done.
    + split_and!; [done | lia | by rewrite app_nil_r].
  - (* release *)
    injection Hstep as <- <-. exists (owners ++ []).
    destruct Hpc as (Hlock & Hc & Hr).
    eapply (Inv_step_shared _ _ _ _ []); eauto; simpl.
    + by rewrite app_nil_r.
    + done.
    + by rewrite app_nil_r.
  - (* respond *)
    injection Hstep as <- <-. exists owners.
    eapply Inv_step_local; eauto. simpl. eauto.
  - done.
Qed.

Lemma filter_by_email_snoc db f email_q :
  truthy email_q = true →
  filter_by_email (db ++ [f]) email_q
  = if decide (str_lower (email f) = str_lower (default "" email_q))
    then filter_by_email db email_q ++ [f]
    else filter_by_email db email_q.
Proof.
  intros Htruthy. unfold filter_by_email. rewrite Htruthy, filter_app.
  rewrite filter_cons, filter_nil. case_decide; [done|]. apply app_nil_r.
Qed.

Lemma list_step_preserves owners c tid page page_size email_q token pc pc' sh' :
  Inv owners c →
  threads c !! tid = Some (ListThread page page_size email_q token pc) →
  list_step page page_size email_q token pc (shared c) = Some (pc', sh') →
  Inv owners
    {| shared := sh';
       threads := <[tid := ListThread page page_size email_q token pc']>
                    (threads c) |}.
Proof.
  intros HI Ht Hstep.
  pose proof (inv_threads _ _ HI _ _ Ht) as Hpc.
  assert (Hlocal : ∀ pc0,
             list_inv (shared c) page page_size email_q token pc0 →
             Inv owners
               {| shared := shared c;
                  threads := <[tid := ListThread page page_size email_q token pc0]>
                               (threads c) |}).
  { intros pc0 Hpc0. eapply Inv_step_local; eauto. }
  destruct pc; simpl in Hstep, Hpc.
  - (* the dependency *)
    rewrite get_admin_token_run in Hstep. simpl in Hstep.
    case_bool_decide as Htok; injection Hstep as <- <-; apply Hlocal; simpl.
    + exists 0%nat. split; [lia|].
      rewrite get_feedbacks_route_run. by rewrite bool_decide_true.
    + by destruct (decide (token = ADMIN_TOKEN)).
  - (* filter or copy *)
    destruct (truthy email_q) eqn:Htruthy;
      injection Hstep as <- <-; apply Hlocal; simpl.
    + split_and!; [done | done | lia |].
      unfold filter_by_email. by rewrite Htruthy.
    + split; [done|]. exists (length (feedback_db (globals (shared c)))).
      split; [done|]. rewrite take_ge by done.
      unfold filter_by_email. by rewrite Htruthy.
  - (* one iteration of the comprehension *)
    destruct Hpc as (Htok & Htruthy & Hi & Hacc).
    destruct (feedback_db (globals (shared c)) !! i) as [f|] eqn:Hf;
      injection Hstep as <- <-; apply Hlocal; simpl.
    + split_and!; [done | done | by apply lookup_lt_Some in Hf |].
      rewrite (take_S_r _ _ _ Hf), filter_by_email_snoc by done.
      by rewrite Hacc.
    + split; [done|]. exists i. done.
  - (* paginate *)
    destruct Hpc as (Htok & k & Hk & Hf).
    injection Hstep as <- <-; apply Hlocal; simpl.
    exists k. split; [done|]. rewrite get_feedbacks_route_run; simpl.
    rewrite bool_decide_false by (by intros []). by rewrite Hf.
  - done.
Qed.

Lemma step_preserves c c' :
  step c c' → (∃ owners, Inv owners c) → ∃ owners, Inv owners c'.
Proof.
  intros Hstep [owners HI]. destruct Hstep as [c tid t Hnone Hfresh | c tid t t' sh' Ht Hstep].
  - (* a request arrives *)
    exists owners. destruct HI as [Hwhole Hown Hfree Hmutex Hthreads].
    assert (Hcs : in_cs t = false).
    { destruct t as [fb pc | ? ? ? ? pc]; destruct pc; done. }
    split; simpl; try done.
    + intros i r Hr. destruct (Hwhole i r Hr) as (tid0 & t0 & fb & H0 & Hfb & ->).
      exists tid0, t0, fb. rewrite lookup_insert_ne by congruence. done.
    + intros tid1 tid2 t1 t2
        [[? ?]|[Hne1 H1]]%lookup_insert_Some
        [[? ?]|[Hne2 H2]]%lookup_insert_Some Hc1 Hc2; simplify_eq;
        first [congruence | eauto].
    + intros tid0 t0 [[? ?]|[Hne H0]]%lookup_insert_Some; [|eauto].
      simplify_eq. destruct t0 as [fb pc | ? ? ? ? pc]; destruct pc; done.
  - destruct t as [fb pc | page page_size email_q token pc]; simpl in Hstep.
    + destruct (submit_step fb pc (shared c)) as [[pc' sh'']|] eqn:Hs; [|done].
      injection Hstep as <- <-. eapply submit_step_preserves; eauto.
    + destruct (list_step page page_size email_q token pc (shared c))
        as [[pc' sh'']|] eqn:Hs; [|done].
      injection Hstep as <- <-. exists owners.
      eapply list_step_preserves; eauto.
Qed.

Lemma reachable_Inv c : reachable c → ∃ owners, Inv owners c.
Proof.
  unfold reachable.
  apply (rtc_ind_r (λ c0, ∃ owners, Inv owners c0) initial_config).
  - exists []. apply Inv_initial.
  - intros y z _ Hstep IH. by eapply step_preserves.
Qed.

(** ** Schedules are executions *)

Lemma schedule_step_sound c ev c' : schedule_step c ev = Some c' → step c c'.
Proof.
  destruct ev as [tid rq | tid]; simpl.
  - destruct (threads c !! tid) eqn:Hlookup; [done|]. intros [= <-].
    apply step_spawn; [done|]. by destruct rq.
  - destruct (threads c !! tid) as [t|] eqn:Hlookup; [|done].
    destruct (thread_step t (shared c)) as [[t' sh']|] eqn:Hstep; [|done].
    intros [= <-]. by eapply step_thread.
Qed.

Lemma schedule_reachable evs c c' :
  reachable c → schedule evs c = Some c' → reachable c'.
Proof.
  revert c. induction evs as [|ev evs IH]; simpl; intros c Hc.
  - by intros [= <-].
  - destruct (schedule_step c ev) as [c1|] eqn:Hev; [|done].
    apply IH. eapply rtc_r; [exact Hc|]. by apply (schedule_step_sound c ev).
Qed.

(** ** What threads observe *)

Lemma py_slice_sublist {A} (l : list A) (start stop : Z) :
  py_slice l start stop `sublist_of` l.
Proof.
  unfold py_slice. etrans; [apply sublist_take | apply sublist_drop].
Qed.

Lemma filter_by_email_sublist db email_q :
  filter_by_email db email_q `sublist_of` db.
Proof.
  unfold filter_by_email. destruct (truthy email_q); [|done].
  apply sublist_filter.
Qed.

Lemma positional_ids (db : list feedback_record) :
  (∀ i r, db !! i = Some r → id r = Z.of_nat i + 1) →
  id <$> db = seqZ 1 (Z.of_nat (length db)).
Proof.
  intros Hpos. apply list_eq. intros i. rewrite list_lookup_fmap.
  destruct (db !! i) as [r|] eqn:Hr; simpl.
  - rewrite (Hpos _ _ Hr).
    rewrite lookup_seqZ_lt; [f_equal; lia|]. apply lookup_lt_Some in Hr. lia.
  - rewrite lookup_seqZ_ge; [done|]. apply lookup_ge_None in Hr. lia.
Qed.

Lemma NoDup_ids_sublist (db seen : list feedback_record) :
  NoDup (id <$> db) → seen `sublist_of` db → NoDup (id <$> seen).
Proof.
  intros Hdb Hsub. eapply sublist_NoDup; [exact Hdb|]. by apply fmap_sublist.
Qed.

Lemma received_id_cases owners sh tid t k :
  thread_inv owners sh tid t →
  received_id t = Some k →
  (in_cs t = true ∧
   k = Z.of_nat (length (feedback_db (globals sh))) + 1) ∨
  (∃ i, owners !! i = Some tid ∧ k = Z.of_nat i + 1).
Proof.
  destruct t as [fb pc | ? ? ? ? pc]; [|done].
  destruct pc; simpl; try done.
  - intros (_ & Hc & ->) [= <-]. left. simpl. split; [done|lia].
  - intros (_ & _ & i & _ & Hown & ->) [= <-]. right. eauto.
  - intros (_ & _ & _ & i & _ & Hown & ->) [= <-]. right. eauto.
  - intros (_ & _ & i & _ & Hown & ->) [= <-]. right. eauto.
  - intros (i & _ & Hown & ->) [= <-]. right. eauto.
  - intros (r & (i & _ & Hown & ->) & [= -> ->]) [= <-]. right. eauto.
Qed.

(** C9. In every state that interleaved submissions and listings can
    reach: two different threads never hold the same id; at most one
    thread is between taking and releasing the lock; the stored ids
    are 1, 2, ..., count, so no id is stored twice; every stored record is
    the whole record of one submission; what a listing has gathered so far
    is a subsequence of the stored records, and its result is the result
    of the sequential route on a prefix of the stored records, with no id
    twice. *)
Theorem no_shared_ids_no_torn_reads (c : config) :
  reachable c →
  let db := feedback_db (globals (shared c)) in
  (∀ tid1 tid2 t1 t2 k,
      threads c !! tid1 = Some t1 → threads c !! tid2 = Some t2 →
      received_id t1 = Some k → received_id t2 = Some k → tid1 = tid2) ∧
  (∀ tid1 tid2 t1 t2,
      threads c !! tid1 = Some t1 → threads c !! tid2 = Some t2 →
      in_cs t1 = true → in_cs t2 = true → tid1 = tid2) ∧
  id <$> db = seqZ 1 (Z.of_nat (length db)) ∧
  NoDup (id <$> db) ∧
  (∀ i r, db !! i = Some r →
      ∃ tid t fb,
        threads c !! tid = Some t ∧ request_of t = Submit fb ∧
        r = {| id := Z.of_nat i + 1; email := in_email fb;
               message := in_message fb |}) ∧
  (∀ tid fb response tasks,
      threads c !! tid = Some (SubmitThread fb (SubmitDone response tasks)) →
      ∃ i, db !! i = Some {| id := Z.of_nat i + 1; email := in_email fb;
                             message := in_message fb |} ∧
           feedback response
           = {| out_id := Z.of_nat i + 1; out_email := in_email fb;
                out_message := in_message fb |}) ∧
  (∀ tid page page_size email_q token pc,
      threads c !! tid = Some (ListThread page page_size email_q token pc) →
      match pc with
      | AtIter _ seen | AtPaginate seen =>
          seen `sublist_of` db ∧ NoDup (id <$> seen)
      | ListDone result =>
          (∃ k, (k ≤ length db)%nat ∧
                result = fst (get_feedbacks_route page page_size email_q token
                                {| feedback_db := take k db;
                                   feedback_id_counter := Z.of_nat k + 1 |})) ∧
          (∀ out, result = inr out →
                  NoDup (out_id <$> feedbacks out) ∧
                  ∃ seen, seen `sublist_of` db ∧
                          feedbacks out = FeedbackOut_of <$> seen)
      | _ => True
      end).
Proof.
  intros Hreach db. destruct (reachable_Inv c Hreach) as [owners HI].
  pose proof HI as [Hwhole Hown Hfree Hmutex Hthreads].
  assert (Hids : id <$> db = seqZ 1 (Z.of_nat (length db))).
  { apply positional_ids. intros i r Hr.
    by destruct (Hwhole i r Hr) as (? & ? & ? & _ & _ & ->). }
  assert (Hnodup : NoDup (id <$> db)) by (rewrite Hids; apply NoDup_seqZ).
  split_and!; try done.
  - intros tid1 tid2 t1 t2 k H1 H2 Hk1 Hk2.
    destruct (received_id_cases _ _ _ _ _ (Hthreads _ _ H1) Hk1)
      as [[Hc1 E1]|(i1 & Ho1 & E1)];
    destruct (received_id_cases _ _ _ _ _ (Hthreads _ _ H2) Hk2)
      as [[Hc2 E2]|(i2 & Ho2 & E2)].
    + eauto.
    + apply lookup_lt_Some in Ho2. lia.
    + apply lookup_lt_Some in Ho1. lia.
    + assert (i1 = i2) as -> by lia. congruence.
  - intros tid fb response tasks Ht.
    destruct (Hthreads _ _ Ht) as (r & (i & Hr & _ & ->) & [= -> ->]).
    exists i. done.
  - intros tid page page_size email_q token pc Ht.
    pose proof (Hthreads _ _ Ht) as Hpc. destruct pc; simpl in Hpc; try done.
    + destruct Hpc as (_ & _ & _ & ->).
      assert (filter_by_email (take i db) email_q `sublist_of` db) as Hsub
        by (etrans; [apply filter_by_email_sublist | apply sublist_take]).
      split; [done|]. by eapply NoDup_ids_sublist.
    + destruct Hpc as (_ & k & _ & ->).
      assert (filter_by_email (take k db) email_q `sublist_of` db) as Hsub
        by (etrans; [apply filter_by_email_sublist | apply sublist_take]).
      split; [done|]. by eapply NoDup_ids_sublist.
    + destruct Hpc as (k & Hk & ->). split; [eauto|].
      intros out. rewrite get_feedbacks_route_run; simpl.
      case_bool_decide; [done|]. intros [= <-]; simpl.
      assert (py_slice (filter_by_email (take k db) email_q)
                ((page - 1) * page_size) ((page - 1) * page_size + page_size)
              `sublist_of` db) as Hsub.
      { etrans; [apply py_slice_sublist|].
        etrans; [apply filter_by_email_sublist | apply sublist_take]. }
      split; [|eauto].
      rewrite <- list_fmap_compose.
      change (out_id ∘ FeedbackOut_of) with id.
      by eapply NoDup_ids_sublist.
Qed.

Lemma no_shared_ids_no_torn_reads_witness :
  reachable example_run ∧
  id <$> feedback_db (globals (shared example_run)) = [1; 2] ∧
  received_id <$> threads example_run !! 0%nat = Some (Some 1) ∧
  received_id <$> threads example_run !! 1%nat = Some (Some 2).
Proof.
  assert (Hrun : schedule example_schedule initial_config = Some example_run)
    by (vm_compute; reflexivity).
  assert (Hreach : reachable example_run)
    by exact (schedule_reachable _ _ _ (rtc_refl _ _) Hrun).
  split; [exact Hreach|].
  destruct (no_shared_ids_no_torn_reads example_run Hreach)
    as (_ & _ & Hids & _).
  split; [rewrite Hids; reflexivity|].
  split; vm_compute; reflexivity.
Defined.

(** * Further properties of the handlers *)

(** ** Pages *)

Lemma listed_window (st : Store) (email_q : option string) (page page_size : Z) :
  1 ≤ page → 1 ≤ page_size →
  listed st email_q page page_size
  = FeedbackOut_of
      <$> take (Z.to_nat page_size)
            (drop (Z.to_nat (page - 1) * Z.to_nat page_size)
               (filter_by_email (feedback_db st) email_q)).
Proof.
  intros Hpage Hsize. unfold listed. rewrite get_feedbacks_run; simpl.
  rewrite py_slice_take_drop by nia.
  by rewrite Z2Nat.inj_mul by lia.
Qed.

Lemma listed_sublist (st : Store) (email_q : option string) (page page_size : Z) :
  ∃ seen, seen `sublist_of` feedback_db st ∧
          listed st email_q page page_size = FeedbackOut_of <$> seen.
Proof.
  unfold listed. rewrite get_feedbacks_run; simpl. eexists. split; [|done].
  etrans; [apply py_slice_sublist | apply filter_by_email_sublist].
Qed.

Lemma run_ids_NoDup (rqs : list request) : NoDup (id <$> feedback_db (run rqs)).
Proof. rewrite run_store; simpl. rewrite imap_ids. apply NoDup_seqZ. Qed.

(** X1. The pages of one listing tile the retained records: pages 1 to
    [k] of size [page_size], one after the other, are the first
    [k * page_size] retained records in stored order, and all of them once
    [k * page_size] reaches their number. *)
Theorem first_pages_tile
    (st : Store) (email_q : option string) (page_size : Z) (k : nat) :
  1 ≤ page_size →
  let retained := filter_by_email (feedback_db st) email_q in
  first_pages st email_q page_size k
  = FeedbackOut_of <$> take (k * Z.to_nat page_size) retained ∧
  ((length retained ≤ k * Z.to_nat page_size)%nat →
   first_pages st email_q page_size k = FeedbackOut_of <$> retained).
Proof.
  intros Hsize retained.
  assert (Htile : first_pages st email_q page_size k
                  = FeedbackOut_of <$> take (k * Z.to_nat page_size) retained).
  { unfold first_pages. induction k as [|k IH]; [done|].
    rewrite seq_S, fmap_app, concat_app, IH. simpl. rewrite app_nil_r.
    rewrite listed_window by lia. fold retained.
    replace (Z.to_nat (Z.of_nat (S k) - 1)) with k by lia.
    rewrite <- fmap_app, take_take_drop. do 2 f_equal. lia. }
  split; [done|]. intros Hall. rewrite Htile. by rewrite take_ge.
Qed.

Lemma first_pages_tile_witness :
  let st :=
    {| feedback_db :=
         (λ k, {| id := k; email := "user@example.com";
                  message := "I really like the new dashboard features!" |})
           <$> seqZ 1 5;
       feedback_id_counter := 6 |} in
  1 ≤ 2 ∧ out_id <$> first_pages st None 2 3 = [1; 2; 3; 4; 5].
Proof.
  intros st. split; [lia|].
  rewrite (proj1 (first_pages_tile st None 2 3 ltac:(lia))). reflexivity.
Defined.

(** X2. After any history served from the empty store, no page of a
    listing shows an id twice, whatever the page number and size, and two
    different pages of the same listing share no id. *)
Theorem pages_share_no_id
    (rqs : list request) (email_q : option string) (page_size p1 p2 : Z) :
  1 ≤ page_size → 1 ≤ p1 → 1 ≤ p2 → p1 ≠ p2 →
  (∀ page size, NoDup (out_id <$> listed (run rqs) email_q page size)) ∧
  (∀ o1 o2,
      o1 ∈ listed (run rqs) email_q p1 page_size →
      o2 ∈ listed (run rqs) email_q p2 page_size →
      out_id o1 ≠ out_id o2).
Proof.
  intros Hsize Hp1 Hp2 Hne. split.
  - intros page size.
    destruct (listed_sublist (run rqs) email_q page size) as (seen & Hsub & ->).
    rewrite <- list_fmap_compose. change (out_id ∘ FeedbackOut_of) with id.
    eapply NoDup_ids_sublist; [apply run_ids_NoDup | done].
  - set (retained := filter_by_email (feedback_db (run rqs)) email_q).
    assert (Hnodup : NoDup (id <$> retained)).
    { eapply NoDup_ids_sublist;
        [apply run_ids_NoDup | apply filter_by_email_sublist]. }
    assert (Hpos : ∀ p o, 1 ≤ p → o ∈ listed (run rqs) email_q p page_size →
               ∃ i, (i < Z.to_nat page_size)%nat ∧
                    (id <$> retained)
                      !! (Z.to_nat (p - 1) * Z.to_nat page_size + i)%nat
                    = Some (out_id o)).
    { intros p o Hp. rewrite listed_window by done. fold retained.
      intros (r & -> & Hr)%list_elem_of_fmap.
      apply list_elem_of_lookup in Hr as [i Hi].
      apply lookup_take_Some in Hi as [Hi Hlt]. rewrite lookup_drop in Hi.
      exists i. split; [done|]. by rewrite list_lookup_fmap, Hi. }
    intros o1 o2 Ho1 Ho2 Heq.
    destruct (Hpos _ _ Hp1 Ho1) as (i1 & Hi1 & Hl1).
    destruct (Hpos _ _ Hp2 Ho2) as (i2 & Hi2 & Hl2).
    rewrite Heq in Hl1.
    pose proof (NoDup_lookup _ _ _ _ Hnodup Hl1 Hl2) as Hsame.
    assert (Z.to_nat (p1 - 1) ≠ Z.to_nat (p2 - 1)) as Hpages by lia.
    nia.
Qed.

Lemma pages_share_no_id_witness :
  let rqs :=
    (λ m, Submit {| in_email := "user@example.com"; in_message := m |})
      <$> ["Great experience here!"; "I found a bug in the dashboard.";
           "Works well for me, thanks."] in
  (1 ≤ 2 ∧ 1 ≤ 1 ∧ 1 ≤ 2 ∧ 1 ≠ 2) ∧
  out_id <$> listed (run rqs) None 1 2 = [1; 2] ∧
  out_id <$> listed (run rqs) None 2 2 = [3] ∧
  NoDup (out_id <$> listed (run rqs) None 1 2).
Proof.
  intros rqs. split; [lia|].
  split; [reflexivity|]. split; [reflexivity|].
  exact (proj1 (pages_share_no_id rqs None 2 1 2
                  ltac:(lia) ltac:(lia) ltac:(lia) ltac:(lia)) 1 2).
Defined.

(** ** Case of the filter *)

(** X3. Two filters, present and so not empty, that lower-case to the
    same string are answered alike, for every store, page and page size,
    whatever [str.lower] does beyond ASCII; so two ASCII filters that
    differ only in the case of their letters are answered alike. *)
Theorem filters_equal_up_to_case
    (lower : string → string) (st : Store) (e1 e2 : string)
    (page page_size : Z) (token_auth : bool) :
  e1 ≠ "" → e2 ≠ "" →
  (lower e1 = lower e2 →
   get_feedbacks_with lower page page_size (Some e1) token_auth st
   = get_feedbacks_with lower page page_size (Some e2) token_auth st) ∧
  (extends_ascii_lower lower →
   is_ascii e1 = true → is_ascii e2 = true → str_lower e1 = str_lower e2 →
   get_feedbacks_with lower page page_size (Some e1) token_auth st
   = get_feedbacks_with lower page page_size (Some e2) token_auth st).
Proof.
  intros He1 He2.
  assert (Hsame : lower e1 = lower e2 →
            get_feedbacks_with lower page page_size (Some e1) token_auth st
            = get_feedbacks_with lower page page_size (Some e2) token_auth st).
  { intros Heq. rewrite !get_feedbacks_with_run.
    rewrite !filter_by_email_with_present by done. by rewrite Heq. }
  split; [exact Hsame|].
  intros Hlower Ha1 Ha2 Heq. apply Hsame.
  by rewrite (Hlower e1 Ha1), (Hlower e2 Ha2).
Qed.

Lemma filters_equal_up_to_case_witness :
  let st :=
    {| feedback_db :=
         [ {| id := 1; email := "User@example.com";
              message := "Great experience here!" |};
           {| id := 2; email := "other@example.com";
              message := "I found a bug in the dashboard." |} ];
       feedback_id_counter := 3 |} in
  ("USER@example.com" ≠ "" ∧ "user@example.com" ≠ "") ∧
  get_feedbacks_with str_lower 1 10 (Some "USER@example.com") true st
  = get_feedbacks_with str_lower 1 10 (Some "user@example.com") true st ∧
  total_listed_with str_lower st (Some "USER@example.com") 1 10 = Some 1.
Proof.
  intros st. split; [split; discriminate|]. split; [|reflexivity].
  exact (proj1 (filters_equal_up_to_case str_lower st "USER@example.com"
                  "user@example.com" 1 10 true
                  ltac:(discriminate) ltac:(discriminate)) eq_refl).
Defined.

(** ** A submission followed by a listing *)

(** X4. What a submission changes in later listings, whatever
    [str.lower] does: the unfiltered listing gains the new record at its
    end; a listing filtered by a non-empty string gains it at its end when
    the submitted e-mail and the filter lower-case to the same string, and
    is unchanged otherwise.  A listing filtered by the submitted e-mail
    itself ends with the new record. *)
Theorem listing_after_submit
    (lower : string → string) (st : Store) (fb : FeedbackIn) :
  let r := {| id := feedback_id_counter st; email := in_email fb;
              message := in_message fb |} in
  let st' := serve st (Submit fb) in
  let retained email_q s := filter_by_email_with lower (feedback_db s) email_q in
  retained None st' = retained None st ++ [r] ∧
  (∀ e, e ≠ "" → lower (in_email fb) = lower e →
     retained (Some e) st' = retained (Some e) st ++ [r] ∧
     ∀ page page_size,
       total_listed_with lower st' (Some e) page page_size
       = (λ n, n + 1) <$> total_listed_with lower st (Some e) page page_size) ∧
  (∀ e, e ≠ "" → lower (in_email fb) ≠ lower e →
     retained (Some e) st' = retained (Some e) st ∧
     ∀ page page_size,
       get_feedbacks_with lower page page_size (Some e) true st'
       = (fst (get_feedbacks_with lower page page_size (Some e) true st), st')) ∧
  (in_email fb ≠ "" → last (retained (Some (in_email fb)) st') = Some r).
Proof.
  intros r st' retained. subst st' retained.
  rewrite serve_submit; simpl. fold r.
  assert (Hsnoc : ∀ e, e ≠ "" →
            filter_by_email_with lower (feedback_db st ++ [r]) (Some e)
            = if decide (lower (in_email fb) = lower e)
              then filter_by_email_with lower (feedback_db st) (Some e) ++ [r]
              else filter_by_email_with lower (feedback_db st) (Some e)).
  { intros e He. by rewrite filter_by_email_with_snoc. }
  split_and!.
  - done.
  - intros e He Hmatch. rewrite Hsnoc, decide_True by done.
    split; [done|]. intros page page_size. unfold total_listed_with.
    rewrite !get_feedbacks_with_run; simpl.
    rewrite Hsnoc, decide_True by done.
    rewrite length_app; simpl. f_equal. lia.
  - intros e He Hmatch. rewrite Hsnoc, decide_False by done.
    split; [done|]. intros page page_size.
    rewrite !get_feedbacks_with_run; simpl.
    by rewrite Hsnoc, decide_False by done.
  - intros He. rewrite Hsnoc, decide_True by done. apply last_snoc.
Qed.

(** X5. Listings never influence the store: a history leaves the store
    that its submissions alone leave, whatever listings, authorised or
    not, were served in between. *)
Theorem listings_leave_no_trace (rqs : list request) :
  run rqs = run (Submit <$> submissions rqs) ∧
  (∀ rqs', submissions rqs' = submissions rqs → run rqs' = run rqs).
Proof.
  assert (Hsub : ∀ fbs, submissions (Submit <$> fbs) = fbs).
  { unfold submissions.
    induction fbs as [|fb fbs IH]; simpl; [done | by f_equal]. }
  split.
  - by rewrite !run_store, Hsub.
  - intros rqs' Heq. by rewrite !run_store, Heq.
Qed.

(** ** Notifications over a history *)

Lemma serve_world_run (w : World) (fb : FeedbackIn) :
  serve_world w fb
  = {| store := serve (store w) (Submit fb);
       stdout := send_confirmation_email (in_email fb) (in_message fb)
                   (stdout w) |}.
Proof.
  unfold serve_world, post_submit. rewrite submit_feedback_run.
  by rewrite serve_submit.
Qed.

(** X6. Serving a sequence of submissions, each with its background
    tasks, stores them as the handler alone would and writes one
    confirmation per submission, in submission order, after the lines
    already written; once the output has failed no line is written, and
    the submissions are stored all the same. *)
Theorem one_notification_per_submission (w : World) (fbs : list FeedbackIn) :
  let w' := foldl serve_world w fbs in
  store w' = foldl serve (store w) (Submit <$> fbs) ∧
  stdout w'
  = foldl (λ o fb, send_confirmation_email (in_email fb) (in_message fb) o)
      (stdout w) fbs ∧
  (∀ lines, stdout w = Some lines →
     ∃ new, stdout w' = Some (lines ++ new) ∧ length new = length fbs) ∧
  (stdout w = None → stdout w' = None).
Proof.
  revert w. induction fbs as [|fb fbs IH]; intros w.
  - simpl. split_and!; try done. intros lines ->. exists [].
    by rewrite app_nil_r.
  - destruct (IH (serve_world w fb)) as (Hstore & Hout & Hlines & Hnone).
    assert (Hs1 : store (serve_world w fb) = serve (store w) (Submit fb))
      by (by rewrite serve_world_run).
    assert (Ho1 : stdout (serve_world w fb)
                  = send_confirmation_email (in_email fb) (in_message fb)
                      (stdout w))
      by (by rewrite serve_world_run).
    rewrite Hs1 in Hstore. rewrite Ho1 in Hout, Hlines, Hnone.
    split_and!; [exact Hstore | exact Hout | |].
    + intros lines Hw. rewrite Hw in Hlines.
      destruct (Hlines _ eq_refl) as (new & Hnew & Hlen).
      eexists (_ :: new). split; [|simpl; by rewrite Hlen].
      cbn [foldl]. rewrite Hnew. by rewrite <- app_assoc.
    + intros Hw. rewrite Hw in Hnone. by apply Hnone.
Qed.

(** ** Validation before the handlers *)

Lemma submit_route_accepts validate_email raw_email raw_message fb st :
  FeedbackIn_validate validate_email raw_email raw_message = Some fb →
  snd (submit_route validate_email raw_email raw_message st)
  = serve st (Submit fb).
Proof.
  intros Hv. unfold submit_route. rewrite Hv, submit_feedback_run.
  by rewrite serve_submit.
Qed.

Lemma submit_route_run_snoc validate_email bodies body :
  submit_route_run validate_email (bodies ++ [body])
  = snd (submit_route validate_email body.1 body.2
           (submit_route_run validate_email bodies)).
Proof. unfold submit_route_run. by rewrite foldl_app. Qed.

Lemma char_length_counts_characters :
  char_length "ééééé" = 5%nat ∧ String.length "ééééé" = 10%nat ∧
  valid_message "ééééé" = false ∧ valid_message "éééééééééé" = true.
Proof. by vm_compute. Qed.

(** X7. A submission body that fails validation, by its e-mail or by the
    number of characters of its message, is answered with 422 and leaves
    the store and the counter as they were, so it uses up no id.  After
    any sequence of bodies the store is the one the accepted bodies alone
    produce, and every stored record has a message of 10 to 1000
    characters and an e-mail the e-mail check produced. *)
Theorem rejected_bodies_leave_no_trace
    (validate_email : string → option string)
    (bodies : list (string * string)) :
  let accepted :=
    omap (λ b, FeedbackIn_validate validate_email b.1 b.2) bodies in
  let st := submit_route_run validate_email bodies in
  st = run (Submit <$> accepted) ∧
  feedback_id_counter st = Z.of_nat (length accepted) + 1 ∧
  (∀ r, r ∈ feedback_db st →
     (10 ≤ char_length (message r) ≤ 1000)%nat ∧
     ∃ raw, validate_email raw = Some (email r)) ∧
  (∀ st0 raw_email raw_message,
     validate_email raw_email = None ∨ valid_message raw_message = false →
     submit_route validate_email raw_email raw_message st0
     = (Unprocessable, st0)).
Proof.
  intros accepted st.
  assert (Hrun : st = run (Submit <$> accepted)).
  { subst accepted st.
    induction bodies as [|[raw_email raw_message] bodies IH] using rev_ind;
      [done|].
    rewrite submit_route_run_snoc, omap_app, fmap_app; simpl.
    destruct (FeedbackIn_validate validate_email raw_email raw_message)
      as [fb|] eqn:Hv; simpl.
    - rewrite (submit_route_accepts _ _ _ fb) by done.
      by rewrite run_snoc, IH.
    - unfold submit_route. rewrite Hv; simpl. by rewrite app_nil_r. }
  assert (Hsub : submissions (Submit <$> accepted) = accepted).
  { unfold submissions. clear Hrun. subst accepted.
    induction (omap _ bodies) as [|fb fbs IH]; simpl; [done | by f_equal]. }
  split_and!.
  - done.
  - rewrite Hrun, run_store, Hsub. done.
  - intros r. rewrite Hrun, run_store, Hsub; simpl.
    intros (i & fb & -> & Hfb)%elem_of_lookup_imap_1; simpl.
    apply list_elem_of_lookup_2, list_elem_of_omap in Hfb
      as ([raw_email raw_message] & _ & Hv).
    unfold FeedbackIn_validate in Hv; simpl in Hv.
    destruct (validate_email raw_email) as [e|] eqn:He; [|done].
    destruct (valid_message raw_message) eqn:Hm; [|done].
    injection Hv as <-; simpl. split; [|eauto].
    unfold valid_message in Hm.
    apply andb_true_iff in Hm as [?%Nat.leb_le ?%Nat.leb_le]. lia.
  - intros st0 raw_email raw_message Hbad.
    unfold submit_route, FeedbackIn_validate.
    destruct Hbad as [-> | Hm]; [done|].
    destruct (validate_email raw_email); [|done]. by rewrite Hm.
Qed.

(** X8. A listing request whose page and page size pass their declared
    bounds is answered with at most [page_size], hence at most 50,
    records; an absent page is page 1 and an absent page size is 10; a
    page below 1 and a page size outside 1..50 are rejected. *)
Theorem validated_listing_is_bounded
    (st : Store) (email_q : option string) (raw_page raw_size : option Z)
    (p ps : Z) :
  validate_page raw_page = Some p →
  validate_page_size raw_size = Some ps →
  (1 ≤ p ∧ 1 ≤ ps ≤ 50) ∧
  (raw_page = None → p = 1) ∧ (raw_size = None → ps = 10) ∧
  (length (listed st email_q p ps) ≤ Z.to_nat ps)%nat ∧
  (length (listed st email_q p ps) ≤ 50)%nat ∧
  (∀ v, validate_page (Some v) = None ↔ v < 1) ∧
  (∀ v, validate_page_size (Some v) = None ↔ v < 1 ∨ 50 < v).
Proof.
  unfold validate_page, validate_page_size, query_int.
  intros Hp Hps.
  assert (Hbounds : 1 ≤ p ∧ 1 ≤ ps ≤ 50).
  { split.
    - destruct raw_page as [v|]; simpl in Hp; [|injection Hp; lia].
      case_bool_decide; simpl in Hp; [injection Hp; lia | done].
    - destruct raw_size as [v|]; simpl in Hps; [|injection Hps; lia].
      repeat case_bool_decide; simpl in Hps; try done; injection Hps; lia. }
  assert (Hlen : (length (listed st email_q p ps) ≤ Z.to_nat ps)%nat).
  { rewrite listed_window by lia. rewrite length_fmap, length_take. lia. }
  split; [exact Hbounds|].
  split; [intros ->; by injection Hp|].
  split; [intros ->; by injection Hps|].
  split; [exact Hlen|]. split; [lia|]. split.
  - intros v. simpl. case_bool_decide; simpl; split; try done; lia.
  - intros v. simpl. repeat case_bool_decide; simpl; split; try done; lia.
Qed.

Lemma validated_listing_is_bounded_witness :
  let st :=
    {| feedback_db :=
         (λ k, {| id := k; email := "user@example.com";
                  message := "I really like the new dashboard features!" |})
           <$> seqZ 1 12;
       feedback_id_counter := 13 |} in
  (validate_page None = Some 1 ∧ validate_page_size None = Some 10) ∧
  (length (listed st None 1 10) ≤ 50)%nat ∧
  out_id <$> listed st None 1 10 = seqZ 1 10.
Proof.
  intros st. split; [split; reflexivity|].
  destruct (validated_listing_is_bounded st None None None 1 10 eq_refl eq_refl)
    as (_ & _ & _ & _ & H50 & _).
  split; [exact H50 | reflexivity].
Defined.

(** * Further properties of concurrent execution *)

Lemma list_step_shared page page_size email_q token pc pc' sh sh' :
  list_step page page_size email_q token pc sh = Some (pc', sh') → sh' = sh.
Proof.
  destruct pc; simpl; try done.
  - destruct (fst (get_admin_token token (globals sh))); by intros [= _ <-].
  - destruct (truthy email_q); by intros [= _ <-].
  - destruct (feedback_db (globals sh) !! i); by intros [= _ <-].
  - by intros [= _ <-].
Qed.

Lemma step_grows owners c c' :
  Inv owners c → step c c' →
  feedback_db (globals (shared c)) `prefix_of` feedback_db (globals (shared c')) ∧
  feedback_id_counter (globals (shared c))
  ≤ feedback_id_counter (globals (shared c')).
Proof.
  intros HI Hstep. revert HI.
  destruct Hstep as [c0 tid t Hnone Hfresh | c0 tid t t' sh' Ht Hstep];
    intros HI; simpl; [done|].
  pose proof (inv_threads _ _ HI _ _ Ht) as Hpc.
  destruct t as [fb pc | page page_size email_q token pc]; simpl in Hstep.
  - destruct (submit_step fb pc (shared c0)) as [[pc' sh'']|] eqn:Hs; [|done].
    injection Hstep as <- <-.
    destruct pc; simpl in Hs, Hpc; try done.
    + destruct (feedback_lock (shared c0)); [done|]. by injection Hs as <- <-.
    + by injection Hs as <- <-.
    + injection Hs as <- <-. simpl. split; [by apply prefix_app_r | done].
    + by injection Hs as <- <-.
    + injection Hs as <- <-. simpl. split; [done | lia].
    + by injection Hs as <- <-.
    + by injection Hs as <- <-.
  - destruct (list_step page page_size email_q token pc (shared c0))
      as [[pc' sh'']|] eqn:Hs; [|done].
    injection Hstep as <- <-. by rewrite (list_step_shared _ _ _ _ _ _ _ _ Hs).
Qed.

(** X9. In every execution the list only grows at its end and the
    counter never goes down: what is stored in a reachable state is a
    prefix of what is stored in every state reached from it. *)
Theorem stored_prefix_survives (c c' : config) :
  reachable c → rtc step c c' →
  feedback_db (globals (shared c)) `prefix_of` feedback_db (globals (shared c')) ∧
  feedback_id_counter (globals (shared c))
  ≤ feedback_id_counter (globals (shared c')) ∧
  (∀ i r, feedback_db (globals (shared c)) !! i = Some r →
          feedback_db (globals (shared c')) !! i = Some r).
Proof.
  intros Hreach Hsteps.
  assert (Hgrow :
    feedback_db (globals (shared c)) `prefix_of` feedback_db (globals (shared c')) ∧
    feedback_id_counter (globals (shared c))
    ≤ feedback_id_counter (globals (shared c')) ∧ reachable c').
  { revert Hsteps.
    apply (rtc_ind_r (λ c1,
      feedback_db (globals (shared c)) `prefix_of` feedback_db (globals (shared c1)) ∧
      feedback_id_counter (globals (shared c))
      ≤ feedback_id_counter (globals (shared c1)) ∧ reachable c1) c).
    - done.
    - intros c1 c2 _ Hstep (Hpre & Hcnt & Hr1).
      destruct (reachable_Inv c1 Hr1) as [owners HI].
      destruct (step_grows _ _ _ HI Hstep) as [Hpre' Hcnt'].
      split_and!; [by etrans | lia | by eapply rtc_r]. }
  destruct Hgrow as ([k Hk] & Hcnt & _).
  split_and!; [by exists k | done |].
  intros i r Hr. rewrite Hk. by apply lookup_app_l_Some.
Qed.

Lemma schedule_rtc evs c c' : schedule evs c = Some c' → rtc step c c'.
Proof.
  revert c. induction evs as [|ev evs IH]; simpl; intros c.
  - by intros [= <-].
  - destruct (schedule_step c ev) as [c1|] eqn:Hev; [|done].
    intros Hrest. eapply rtc_l; [by apply (schedule_step_sound c ev)|].
    by apply IH.
Qed.

Lemma stored_prefix_survives_witness :
  let c := default initial_config
             (schedule (take 12 example_schedule) initial_config) in
  (reachable c ∧ rtc step c example_run) ∧
  id <$> feedback_db (globals (shared c)) = [1] ∧
  feedback_db (globals (shared c))
    `prefix_of` feedback_db (globals (shared example_run)).
Proof.
  intros c.
  assert (Hc : schedule (take 12 example_schedule) initial_config = Some c)
    by (vm_compute; reflexivity).
  assert (Hc' : schedule (drop 12 example_schedule) c = Some example_run)
    by (vm_compute; reflexivity).
  assert (Hreach : reachable c)
    by exact (schedule_reachable _ _ _ (rtc_refl _ _) Hc).
  assert (Hsteps : rtc step c example_run) by exact (schedule_rtc _ _ _ Hc').
  split; [exact (conj Hreach Hsteps)|]. split; [vm_compute; reflexivity|].
  exact (proj1 (stored_prefix_survives c example_run Hreach Hsteps)).
Defined.

(** ** Progress *)

(** How a step of a thread moves it across the critical section and what
    it does to the lock. *)
Lemma thread_step_lock t sh t' sh' :
  thread_step t sh = Some (t', sh') →
  (in_cs t = false ∧ in_cs t' = true ∧
   feedback_lock sh = false ∧ feedback_lock sh' = true) ∨
  (in_cs t = true ∧ in_cs t' = false ∧ feedback_lock sh' = false) ∨
  (in_cs t' = in_cs t ∧ feedback_lock sh' = feedback_lock sh).
Proof.
  destruct t as [fb pc | page page_size email_q token pc]; simpl.
  - destruct (submit_step fb pc sh) as [[pc' sh'']|] eqn:Hs; [|done].
    intros [= <- <-]. destruct pc; simpl in Hs; try done.
    + destruct (feedback_lock sh) eqn:Hlock; [done|].
      injection Hs as <- <-. left. done.
    + injection Hs as <- <-. right; right. done.
    + injection Hs as <- <-. right; right. done.
    + injection Hs as <- <-. right; right. done.
    + injection Hs as <- <-. right; right. done.
    + injection Hs as <- <-. right; left. done.
    + injection Hs as <- <-. right; right. done.
  - destruct (list_step page page_size email_q token pc sh)
      as [[pc' sh'']|] eqn:Hs; [|done].
    intros [= <- <-]. rewrite (list_step_shared _ _ _ _ _ _ _ _ Hs).
    right; right. split; [|done]. by destruct pc, pc'.
Qed.

(** While the lock is held, the thread that holds it exists. *)
Lemma reachable_holder c :
  reachable c →
  feedback_lock (shared c) = true →
  ∃ tid t, threads c !! tid = Some t ∧ in_cs t = true.
Proof.
  unfold reachable.
  apply (rtc_ind_r (λ c0, feedback_lock (shared c0) = true →
                          ∃ tid t, threads c0 !! tid = Some t ∧ in_cs t = true)
           initial_config); [done|].
  intros c1 c2 _ Hstep IH.
  destruct Hstep as [c1 tid t Hnone Hfresh | c1 tid t t' sh' Ht Hstep]; simpl.
  - intros Hlock. destruct (IH Hlock) as (tid0 & t0 & H0 & Hcs).
    exists tid0, t0. split; [|done].
    rewrite lookup_insert_ne; [done | congruence].
  - intros Hlock.
    destruct (thread_step_lock _ _ _ _ Hstep)
      as [(_ & Hcs' & _)|[(_ & _ & Hfree)|(Hsame & Hlock')]].
    + exists tid, t'. by rewrite lookup_insert_eq.
    + congruence.
    + rewrite Hlock' in Hlock. destruct (IH Hlock) as (tid0 & t0 & H0 & Hcs).
      destruct (decide (tid0 = tid)) as [->|Hne].
      * exists tid, t'. rewrite lookup_insert_eq. split; [done|].
        rewrite Hsame. congruence.
      * exists tid0, t0. by rewrite lookup_insert_ne.
Qed.

Lemma in_cs_can_step t sh : in_cs t = true → is_Some (thread_step t sh).
Proof.
  destruct t as [fb pc | ? ? ? ? pc]; [|done].
  destruct pc; simpl; try done; eauto.
Qed.

(** X10. No reachable state is stuck.  A thread that has not returned can
    take a step, unless it is a submission waiting for the lock; then the
    lock is held by another thread, and that thread can take a step.  So
    while any request is unfinished some thread can run. *)
Theorem no_deadlock (c : config) (tid : nat) (t : thread) :
  reachable c →
  threads c !! tid = Some t →
  finished t = false →
  (is_Some (thread_step t (shared c)) ∨
   (∃ fb, t = SubmitThread fb AtAcquire) ∧
   feedback_lock (shared c) = true ∧
   ∃ tid' t', tid' ≠ tid ∧ threads c !! tid' = Some t' ∧
              in_cs t' = true ∧ is_Some (thread_step t' (shared c))) ∧
  (∃ tid' t', threads c !! tid' = Some t' ∧
              is_Some (thread_step t' (shared c))).
Proof.
  intros Hreach Ht Hfin.
  assert (Hcases :
    is_Some (thread_step t (shared c)) ∨
    (∃ fb, t = SubmitThread fb AtAcquire) ∧
    feedback_lock (shared c) = true ∧
    ∃ tid' t', tid' ≠ tid ∧ threads c !! tid' = Some t' ∧
               in_cs t' = true ∧ is_Some (thread_step t' (shared c))).
  { destruct t as [fb pc | page page_size email_q token pc].
    - destruct pc; try (left; by apply in_cs_can_step); try done.
      + simpl. destruct (feedback_lock (shared c)) eqn:Hlock; [|left; eauto].
        right. split; [eauto|]. split; [done|].
        destruct (reachable_holder c Hreach Hlock) as (tid' & t' & Ht' & Hcs).
        exists tid', t'. split_and!; try done.
        * intros ->. rewrite Ht in Ht'. by injection Ht' as <-.
        * by apply in_cs_can_step.
      + left. simpl. eauto.
    - left. destruct pc; simpl; try done; eauto.
      + destruct (fst (get_admin_token token (globals (shared c)))); eauto.
      + destruct (truthy email_q); eauto.
      + destruct (feedback_db (globals (shared c)) !! i); eauto. }
  split; [exact Hcases|].
  destruct Hcases as [Hstep | (_ & _ & tid' & t' & _ & Ht' & _ & Hstep)]; eauto.
Qed.

Lemma no_deadlock_witness :
  let c := default initial_config
             (schedule (take 10 example_schedule) initial_config) in
  (reachable c ∧
   threads c !! 1%nat
   = Some (SubmitThread {| in_email := "U1@Example.com";
                           in_message := "I found a bug in the dashboard." |}
             AtAcquire)) ∧
  feedback_lock (shared c) = true ∧
  ∃ tid' t', threads c !! tid' = Some t' ∧ is_Some (thread_step t' (shared c)).
Proof.
  intros c.
  assert (Hc : schedule (take 10 example_schedule) initial_config = Some c)
    by (vm_compute; reflexivity).
  assert (Hreach : reachable c)
    by exact (schedule_reachable _ _ _ (rtc_refl _ _) Hc).
  assert (Ht : threads c !! 1%nat
               = Some (SubmitThread
                         {| in_email := "U1@Example.com";
                            in_message := "I found a bug in the dashboard." |}
                         AtAcquire))
    by (vm_compute; reflexivity).
  split; [exact (conj Hreach Ht)|]. split; [vm_compute; reflexivity|].
  exact (proj2 (no_deadlock c 1 _ Hreach Ht eq_refl)).
Defined.

(** ** Concurrent states and sequential histories *)

Lemma submissions_Submit (fbs : list FeedbackIn) :
  submissions (Submit <$> fbs) = fbs.
Proof.
  unfold submissions. induction fbs as [|fb fbs IH]; simpl; [done | by f_equal].
Qed.

(** X11. A reachable state in which no thread is between taking and
    releasing the lock has the lock free, and its list and counter are
    those a sequential server holds after the stored submissions, served
    one after the other in stored order; each of them is the request of a
    thread. *)
Theorem quiescent_store_is_sequential (c : config) :
  reachable c →
  (∀ tid t, threads c !! tid = Some t → in_cs t = false) →
  let fbs := (λ r, {| in_email := email r; in_message := message r |})
               <$> feedback_db (globals (shared c)) in
  feedback_lock (shared c) = false ∧
  globals (shared c) = run (Submit <$> fbs) ∧
  (∀ fb, fb ∈ fbs →
     ∃ tid t, threads c !! tid = Some t ∧ request_of t = Submit fb).
Proof.
  intros Hreach Hquiet fbs.
  assert (Hlock : feedback_lock (shared c) = false).
  { destruct (feedback_lock (shared c)) eqn:Hlock; [|done].
    destruct (reachable_holder c Hreach Hlock) as (tid & t & Ht & Hcs).
    rewrite (Hquiet _ _ Ht) in Hcs. done. }
  destruct (reachable_Inv c Hreach) as [owners [Hwhole _ Hfree _ _]].
  split_and!; [done| |].
  - rewrite run_store, submissions_Submit. subst fbs.
    destruct (globals (shared c)) as [db counter] eqn:Hg; simpl in *.
    f_equal.
    + apply list_eq. intros i.
      rewrite list_lookup_imap, list_lookup_fmap.
      destruct (db !! i) as [r|] eqn:Hr; simpl; [|done].
      destruct (Hwhole i r Hr) as (_ & _ & fb & _ & _ & ->). done.
    + rewrite length_fmap. by apply Hfree.
  - subst fbs. intros fb (r & -> & Hr)%list_elem_of_fmap.
    apply list_elem_of_lookup in Hr as [i Hr].
    destruct (Hwhole i r Hr) as (tid & t & fb & Ht & Hreq & ->).
    exists tid, t. split; [done|]. rewrite Hreq. by destruct fb.
Qed.

Lemma quiescent_store_is_sequential_witness :
  (reachable example_run ∧
   ∀ tid t, threads example_run !! tid = Some t → in_cs t = false) ∧
  globals (shared example_run)
  = run [ Submit {| in_email := "u1@example.com";
                    in_message := "Great experience here!" |};
          Submit {| in_email := "U1@Example.com";
                    in_message := "I found a bug in the dashboard." |} ].
Proof.
  assert (Hrun : schedule example_schedule initial_config = Some example_run)
    by (vm_compute; reflexivity).
  assert (Hreach : reachable example_run)
    by exact (schedule_reachable _ _ _ (rtc_refl _ _) Hrun).
  assert (Hquiet : map_Forall (λ _ t, in_cs t = false) (threads example_run))
    by (apply (bool_decide_unpack _); vm_compute; exact I).
  split; [exact (conj Hreach Hquiet)|].
  exact (proj1 (proj2 (quiescent_store_is_sequential example_run Hreach Hquiet))).
Defined.

(** ** A thread that runs alone *)

Lemma schedule_Run tid t t' sh' c evs :
  threads c !! tid = Some t →
  thread_step t (shared c) = Some (t', sh') →
  schedule (Run tid :: evs) c
  = schedule evs {| shared := sh'; threads := <[tid := t']> (threads c) |}.
Proof. intros Ht Hstep. simpl. by rewrite Ht, Hstep. Qed.

Lemma run_alone_S tid t t' sh' c n :
  threads c !! tid = Some t →
  thread_step t (shared c) = Some (t', sh') →
  run_alone tid (S n) c
  = run_alone tid n {| shared := sh'; threads := <[tid := t']> (threads c) |}.
Proof. intros Ht Hstep. by apply (schedule_Run tid t t' sh'). Qed.

(** One step of thread [tid] of a goal [run_alone tid (S n) c = _]; [tac]
    evaluates the step. *)
Ltac alone_step tac :=
  etrans;
  [ eapply run_alone_S;
    [ first [eassumption | simpl; apply lookup_insert_eq] | simpl; tac ]
  | simpl threads; rewrite ?insert_insert_eq ].

(** X12. A submission that takes the free lock and runs its seven steps
    without another thread in between ends with the response and the
    task of the sequential [submit_feedback] on the globals it found,
    leaves the globals that call leaves, and leaves the lock free. *)
Theorem submission_alone_is_sequential
    (c : config) (tid : nat) (fb : FeedbackIn) :
  feedback_lock (shared c) = false →
  threads c !! tid = Some (SubmitThread fb AtAcquire) →
  ∃ response tasks st',
    submit_feedback fb [] (globals (shared c)) = (inr (response, tasks), st') ∧
    run_alone tid 7 c
    = Some {| shared := {| globals := st'; feedback_lock := false |};
              threads := <[tid := SubmitThread fb (SubmitDone response tasks)]>
                           (threads c) |}.
Proof.
  intros Hlock Ht. rewrite submit_feedback_run. eexists _, _, _.
  split; [reflexivity|].
  destruct c as [[[db counter] lock] pool]; simpl in *. subst lock.
  do 7 (alone_step ltac:(reflexivity)). reflexivity.
Qed.

Lemma submission_alone_is_sequential_witness :
  let fb := {| in_email := "u1@example.com";
               in_message := "Great experience here!" |} in
  let c := {| shared := {| globals := initial_store; feedback_lock := false |};
              threads := {[ 0%nat := SubmitThread fb AtAcquire ]} |} in
  (feedback_lock (shared c) = false ∧
   threads c !! 0%nat = Some (SubmitThread fb AtAcquire)) ∧
  ∃ c', run_alone 0 7 c = Some c' ∧
        globals (shared c') = serve initial_store (Submit fb) ∧
        received_id <$> threads c' !! 0%nat = Some (Some 1).
Proof.
  intros fb c. split; [split; reflexivity|].
  destruct (submission_alone_is_sequential c 0 fb eq_refl eq_refl)
    as (response & tasks & st' & Hseq & Halone).
  rewrite submit_feedback_run in Hseq. injection Hseq as <- <- <-.
  eexists. split; [exact Halone|]. split; [reflexivity|].
  simpl. by rewrite lookup_insert_eq.
Defined.

Lemma run_alone_iterate tid page page_size email_q token sh :
  ∀ (k m i : nat) acc pool,
    (i + k)%nat = length (feedback_db (globals sh)) →
    pool !! tid = Some (ListThread page page_size email_q token (AtIter i acc)) →
    run_alone tid (S k + m) {| shared := sh; threads := pool |}
    = run_alone tid m
        {| shared := sh;
           threads :=
             <[tid := ListThread page page_size email_q token
                        (AtPaginate
                           (acc ++ filter
                                     (λ f, str_lower (email f)
                                           = str_lower (default "" email_q))
                                     (drop i (feedback_db (globals sh)))))]>
               pool |}.
Proof.
  induction k as [|k IH]; intros m i acc pool Hlen Ht.
  - alone_step ltac:(rewrite lookup_ge_None_2 by lia; reflexivity).
    rewrite drop_ge by lia. by rewrite filter_nil, app_nil_r.
  - destruct (lookup_lt_is_Some_2 (feedback_db (globals sh)) i) as [f Hf];
      [lia|].
    alone_step ltac:(rewrite Hf; reflexivity).
    rewrite IH with (i := S i)
                    (acc := if decide (str_lower (email f)
                                       = str_lower (default "" email_q))
                            then acc ++ [f] else acc);
      [|lia|apply lookup_insert_eq].
    rewrite insert_insert_eq, (drop_S _ _ _ Hf), filter_cons.
    case_decide; [by rewrite <- app_assoc | done].
Qed.

(** X13. A listing that runs from its first step to its last without
    another thread in between returns what the sequential route returns
    on the globals it found, and leaves them and the lock untouched. *)
Theorem listing_alone_is_sequential
    (c : config) (tid : nat) (page page_size : Z) (email_q : option string)
    (token : string) :
  threads c !! tid = Some (ListThread page page_size email_q token AtAuth) →
  ∃ n,
    run_alone tid n c
    = Some {| shared := shared c;
              threads :=
                <[tid := ListThread page page_size email_q token
                           (ListDone
                              (fst (get_feedbacks_route page page_size email_q
                                      token (globals (shared c)))))]>
                  (threads c) |}.
Proof.
  intros Ht. rewrite get_feedbacks_route_run; simpl.
  destruct c as [sh pool]; simpl in *.
  destruct (decide (token = ADMIN_TOKEN)) as [Htok|Htok].
  - rewrite bool_decide_false by (by intros []).
    destruct (truthy email_q) eqn:Htruthy.
    + exists (2 + S (length (feedback_db (globals sh))) + 1)%nat.
      alone_step ltac:(rewrite get_admin_token_run, bool_decide_false
                         by (by intros []); reflexivity).
      alone_step ltac:(rewrite Htruthy; reflexivity).
      rewrite (run_alone_iterate tid page page_size email_q token sh
                 (length (feedback_db (globals sh))) 1 0 [])
        by (first [done | apply lookup_insert_eq]).
      rewrite insert_insert_eq.
      alone_step ltac:(reflexivity).
      unfold filter_by_email. rewrite Htruthy, drop_0. reflexivity.
    + exists 3%nat.
      alone_step ltac:(rewrite get_admin_token_run, bool_decide_false
                         by (by intros []); reflexivity).
      alone_step ltac:(rewrite Htruthy; reflexivity).
      alone_step ltac:(reflexivity).
      unfold filter_by_email. rewrite Htruthy. reflexivity.
  - rewrite bool_decide_true by done. exists 1%nat.
    alone_step ltac:(rewrite get_admin_token_run, bool_decide_true by done;
                     reflexivity).
    reflexivity.
Qed.

Lemma listing_alone_is_sequential_witness :
  let c :=
    {| shared :=
         {| globals :=
              {| feedback_db :=
                   [ {| id := 1; email := "U1@Example.com";
                        message := "Great experience here!" |};
                     {| id := 2; email := "u2@example.com";
                        message := "I found a bug in the dashboard." |} ];
                 feedback_id_counter := 3 |};
            feedback_lock := true |};
       threads :=
         {[ 5%nat := ListThread 1 10 (Some "u1@example.com") ADMIN_TOKEN
                       AtAuth ]} |} in
  threads c !! 5%nat
  = Some (ListThread 1 10 (Some "u1@example.com") ADMIN_TOKEN AtAuth) ∧
  ∃ n c',
    run_alone 5 n c = Some c' ∧
    threads c' !! 5%nat
    = Some (ListThread 1 10 (Some "u1@example.com") ADMIN_TOKEN
              (ListDone
                 (inr {| total := 1; page := 1; page_size := 10;
                         feedbacks :=
                           [ {| out_id := 1; out_email := "U1@Example.com";
                                out_message := "Great experience here!" |} ] |}))).
Proof.
  intros c. split; [reflexivity|].
  destruct (listing_alone_is_sequential c 5 1 10 (Some "u1@example.com")
              ADMIN_TOKEN eq_refl) as [n Hn].
  exists n. eexists. split; [exact Hn|].
  simpl. rewrite lookup_insert_eq. reflexivity.
Defined.
